(** * Event-flow inventory of the BioPro analysis scripts

    A shallow embedding of the two places where the repository merges
    per-service (publishes, consumes) facts into an event-flow graph:

    - [EventFlowMapper.map_flows] and the summary block of [main] in
      [analyze_biopro_comprehensive.py] (module [Comprehensive]);
    - the "Track event flows" block of [main] in
      [extract_with_consumers.py] (module [WithConsumers]).

    Python [str] values are modelled as [string]; a Python [list] as [list];
    a [defaultdict(list)] as a [gmap] read with a default; a [set] as a
    [gset]; the insertion-ordered [dict] of [extract_with_consumers.py] as
    an association list. *)

From Stdlib Require Import String Ascii NArith.
From stdpp Require Import gmap strings list fin_maps sorting.

(** * Definitions *)

(** ** Python's order on [str]

    [sorted] compares strings lexicographically by code point, a proper
    prefix being smaller; on UTF-8 bytes this is [String.compare]. *)

Module PyStr.

Definition le (s1 s2 : string) : Prop := String.leb s1 s2 = true.

Definition lt (s1 s2 : string) : Prop := String.ltb s1 s2 = true.

#[global] Instance le_dec : RelDecision le.
Proof. intros s1 s2. unfold le. apply _. Defined.

#[global] Instance lt_dec : RelDecision lt.
Proof. intros s1 s2. unfold lt. apply _. Defined.

End PyStr.

(** [sorted(xs)] on a list of strings: Python's sort is a stable merge sort. *)
Definition sorted (xs : list string) : list string := merge_sort PyStr.le xs.

(** ** Appending what was not seen before *)

(** [if x not in acc: acc.append(x)]. *)
Definition push (acc : list string) (x : string) : list string :=
  if decide (x ∈ acc) then acc else acc ++ [x].

(** The distinct elements of [xs], each at the place of its first occurrence. *)
Definition first_seen (xs : list string) : list string := foldl push [] xs.

(** The service ids offered for event [e] while one service's list [names]
    is walked: [sid] once per occurrence of [e]. *)
Definition mentions (e : string) (names : list string) (sid : string)
  : list string :=
  names ≫= (fun n => if decide (n = e) then [sid] else []).

(** ** [analyze_biopro_comprehensive.py] *)

Module Comprehensive.

(** The dict built by [ServiceAnalyzer._build_service_info]; only the keys
    read by [map_flows] are kept. *)
Module Service.
Record t : Type := mk {
  name : string;
  publishes : list string;
  consumes : list string
}.
End Service.

(** The dict returned by [RepositoryAnalyzer.analyze]. *)
Module Repo.
Record t : Type := mk {
  name : string;
  services : list Service.t
}.
End Repo.

(** One element of [event_flows]. [is_orphaned] is stored when the entry is
    created and read back later. *)
Record EventFlow : Type := mkFlow {
  event : string;
  publishers : list string;
  consumers : list string;
  is_orphaned : bool
}.

#[global] Instance EventFlow_eq_dec : EqDecision EventFlow.
Proof. solve_decision. Defined.

(** [d[k].append(v)] on a [defaultdict(list)]. *)
Definition dd_append (d : gmap string (list string)) (k v : string)
  : gmap string (list string) :=
  <[k := default [] (d !! k) ++ [v]]> d.

(** [d.get(k, [])]. *)
Definition dd_get (d : gmap string (list string)) (k : string) : list string :=
  default [] (d !! k).

(** [f"{repo['name']}/{service['name']}"]. *)
Definition service_id (repo_name : string) (service : Service.t) : string :=
  repo_name +:+ "/" +:+ Service.name service.

(** The pair ([event_publishers], [event_consumers]). *)
Definition Index : Type := gmap string (list string) * gmap string (list string).

(** Body of the inner loop [for service in repo['services']]. *)
Definition index_service (repo_name : string) (ix : Index) (service : Service.t)
  : Index :=
  let sid := service_id repo_name service in
  let event_publishers :=
    foldl (fun d event_name => dd_append d event_name sid)
          ix.1 (Service.publishes service) in
  let event_consumers :=
    foldl (fun d event_name => dd_append d event_name sid)
          ix.2 (Service.consumes service) in
  (event_publishers, event_consumers).

(** Body of the outer loop [for repo in self.repositories]. *)
Definition index_repo (ix : Index) (repo : Repo.t) : Index :=
  foldl (index_service (Repo.name repo)) ix (Repo.services repo).

Definition build_index (repositories : list Repo.t) : Index :=
  foldl index_repo (∅, ∅) repositories.

(** [set(event_publishers.keys()) | set(event_consumers.keys())]. *)
Definition all_events (ix : Index) : gset string := dom ix.1 ∪ dom ix.2.

(** Body of the loop [for event_name in sorted(all_events)]. *)
Definition make_flow (ix : Index) (event_name : string) : EventFlow :=
  let publishers := dd_get ix.1 event_name in
  let consumers := dd_get ix.2 event_name in
  {| event := event_name;
     publishers := publishers;
     consumers := consumers;
     is_orphaned := (length publishers =? 0) || (length consumers =? 0) |}.

(** The flows appended by one call, given the order [iteration] in which the
    set [all_events] hands its elements to [sorted] (a Python set of strings
    iterates in an order that depends on the process's hash seed). *)
Definition new_flows_from (iteration : list string) (ix : Index) : list EventFlow :=
  make_flow ix <$> sorted iteration.

Definition new_flows (repositories : list Repo.t) : list EventFlow :=
  let ix := build_index repositories in
  new_flows_from (elements (all_events ix)) ix.

(** The [EventFlowMapper] object: [map_flows] appends to [self.event_flows]
    and returns that same list. *)
Record EventFlowMapper : Type := mkMapper {
  repositories : list Repo.t;
  event_flows : list EventFlow
}.

Definition init (repositories : list Repo.t) : EventFlowMapper :=
  {| repositories := repositories; event_flows := [] |}.

Definition map_flows (self : EventFlowMapper) : EventFlowMapper * list EventFlow :=
  let flows := event_flows self ++ new_flows (repositories self) in
  ({| repositories := repositories self; event_flows := flows |}, flows).

(** [EventFlowMapper(all_repositories).map_flows()], as [main] runs it. *)
Definition build (repositories : list Repo.t) : list EventFlow :=
  (map_flows (init repositories)).2.

(** [[f for f in event_flows if f['is_orphaned']]]. *)
Definition orphaned (flows : list EventFlow) : list EventFlow :=
  filter (fun f => is_orphaned f = true) flows.

(** The ["summary"] entry of the inventory built in [main]. *)
Record Summary : Type := mkSummary {
  total_repositories : nat;
  total_services : nat;
  total_events : nat;
  orphaned_events : nat
}.

Definition summary (all_repositories : list Repo.t) (flows : list EventFlow)
  : Summary :=
  {| total_repositories := length all_repositories;
     total_services := sum_list (length ∘ Repo.services <$> all_repositories);
     total_events := length flows;
     orphaned_events := length (filter (fun f => is_orphaned f = true) flows) |}.

(** The input seen as one sequence of facts, in processing order. *)
Record Fact : Type := mkFact {
  fact_id : string;
  published : list string;
  consumed : list string
}.

Definition facts_of_repo (repo : Repo.t) : list Fact :=
  (fun service => {| fact_id := service_id (Repo.name repo) service;
                     published := Service.publishes service;
                     consumed := Service.consumes service |})
    <$> Repo.services repo.

Definition facts (repositories : list Repo.t) : list Fact :=
  repositories ≫= facts_of_repo.

(** Processing one fact: the inner loop body read on [Fact]. *)
Definition index_fact (ix : Index) (f : Fact) : Index :=
  (foldl (fun d event_name => dd_append d event_name (fact_id f)) ix.1 (published f),
   foldl (fun d event_name => dd_append d event_name (fact_id f)) ix.2 (consumed f)).

(** What a run appends to [event_publishers[e]] and [event_consumers[e]]. *)
Definition pubs_of (e : string) (fs : list Fact) : list string :=
  fs ≫= (fun f => mentions e (published f) (fact_id f)).

Definition cons_of (e : string) (fs : list Fact) : list string :=
  fs ≫= (fun f => mentions e (consumed f) (fact_id f)).

(** Every event name some fact lists. *)
Definition names_of (fs : list Fact) : list string :=
  fs ≫= (fun f => published f ++ consumed f).

End Comprehensive.

(** ** [extract_with_consumers.py] *)

Module WithConsumers.

(** The value stored under an event name in [event_flows]. *)
Record Flow : Type := mkFlow {
  publishers : list string;
  consumers : list string
}.

(** The dict returned by [extract_event_info]; the tracking block reads
    only its ['name']. *)
Record EventInfo : Type := mkEvent {
  name : string
}.

(** What the tracking block reads of one scanned service. *)
Record Scan : Type := mkScan {
  service_name : string;
  service_events : list EventInfo;
  consumed_event_names : list string
}.

(** [d[k]] on the insertion-ordered dict; [None] stands for [KeyError]. *)
Fixpoint getitem (d : list (string * Flow)) (k : string) : option Flow :=
  match d with
  | [] => None
  | (k', v) :: d' => if decide (k' = k) then Some v else getitem d' k
  end.

(** [k in d]. *)
Definition contains (d : list (string * Flow)) (k : string) : bool :=
  match getitem d k with Some _ => true | None => false end.

(** [d[k] = v]: an existing key keeps its place, a new key goes last. *)
Fixpoint setitem (d : list (string * Flow)) (k : string) (v : Flow)
  : list (string * Flow) :=
  match d with
  | [] => [(k, v)]
  | (k', v') :: d' =>
      if decide (k' = k) then (k, v) :: d' else (k', v') :: setitem d' k v
  end.

(** [list(d)]: the keys in iteration order. *)
Definition keys (d : list (string * Flow)) : list string := d.*1.

(** A [for] loop whose body may raise. *)
Fixpoint for_each {S A : Type} (body : S -> A -> option S) (s : S) (xs : list A)
  : option S :=
  match xs with
  | [] => Some s
  | x :: xs => s' ← body s x; for_each body s' xs
  end.

(** Body of [for event in service_events] (lines 229-236). *)
Definition track_publisher (service_name : string)
    (event_flows : list (string * Flow)) (event : EventInfo)
  : option (list (string * Flow)) :=
  let event_flows :=
    if negb (contains event_flows (name event))
    then setitem event_flows (name event) {| publishers := []; consumers := [] |}
    else event_flows in
  flow ← getitem event_flows (name event);
  if decide (service_name ∉ publishers flow) then
    flow ← getitem event_flows (name event);
    Some (setitem event_flows (name event)
            {| publishers := publishers flow ++ [service_name];
               consumers := consumers flow |})
  else Some event_flows.

(** Body of [for event_name in consumed_event_names] (lines 239-246). *)
Definition track_consumer (service_name : string)
    (event_flows : list (string * Flow)) (event_name : string)
  : option (list (string * Flow)) :=
  let event_flows :=
    if negb (contains event_flows event_name)
    then setitem event_flows event_name {| publishers := []; consumers := [] |}
    else event_flows in
  flow ← getitem event_flows event_name;
  if decide (service_name ∉ consumers flow) then
    flow ← getitem event_flows event_name;
    Some (setitem event_flows event_name
            {| publishers := publishers flow;
               consumers := consumers flow ++ [service_name] |})
  else Some event_flows.

(** The tracking block for one service. *)
Definition track_service (event_flows : list (string * Flow)) (scan : Scan)
  : option (list (string * Flow)) :=
  event_flows ← for_each (track_publisher (service_name scan)) event_flows
                         (service_events scan);
  for_each (track_consumer (service_name scan)) event_flows
           (consumed_event_names scan).

(** The loops over repositories and services, from [event_flows = {}]. *)
Definition track_all (scans : list Scan) : option (list (string * Flow)) :=
  for_each track_service [] scans.

(** [published_event_names] of the service record. *)
Definition published_event_names (scan : Scan) : list string :=
  name <$> service_events scan.

(** *** The same steps without the error channel *)

Inductive Side : Type := Pub | Con.

#[global] Instance Side_eq_dec : EqDecision Side.
Proof. solve_decision. Defined.

Definition side_get (sd : Side) (fl : Flow) : list string :=
  match sd with Pub => publishers fl | Con => consumers fl end.

Definition side_add (sd : Side) (s : string) (fl : Flow) : Flow :=
  match sd with
  | Pub => {| publishers := publishers fl ++ [s]; consumers := consumers fl |}
  | Con => {| publishers := publishers fl; consumers := consumers fl ++ [s] |}
  end.

Definition empty_flow : Flow := {| publishers := []; consumers := [] |}.

Definition add (sd : Side) (s : string) (d : list (string * Flow)) (k : string)
  : list (string * Flow) :=
  match getitem d k with
  | None => setitem d k (side_add sd s empty_flow)
  | Some fl =>
      if decide (s ∈ side_get sd fl) then d else setitem d k (side_add sd s fl)
  end.

Definition step (d : list (string * Flow)) (scan : Scan) : list (string * Flow) :=
  foldl (add Con (service_name scan))
        (foldl (add Pub (service_name scan)) d (published_event_names scan))
        (consumed_event_names scan).

(** The list stored for [k] on side [sd], empty when [k] is absent. *)
Definition view (d : list (string * Flow)) (k : string) (sd : Side) : list string :=
  side_get sd (default empty_flow (getitem d k)).

Definition side_names (sd : Side) (scan : Scan) : list string :=
  match sd with
  | Pub => published_event_names scan
  | Con => consumed_event_names scan
  end.

(** The service names offered for [e] on side [sd] over a whole run. *)
Definition offered (sd : Side) (e : string) (scans : list Scan) : list string :=
  scans ≫= (fun scan => mentions e (side_names sd scan) (service_name scan)).

Definition names_of (scans : list Scan) : list string :=
  scans ≫= (fun scan => published_event_names scan ++ consumed_event_names scan).

End WithConsumers.

(** ** Python's [str] methods used by the scanners *)

Module Str.

(** [s.startswith(p)]. *)
Definition startswith (s p : string) : bool := String.prefix p s.

(** [s.endswith(suf)]. *)
Fixpoint endswith (s suf : string) : bool :=
  String.eqb s suf
  || match s with
     | EmptyString => false
     | String _ s' => endswith s' suf
     end.

(** [sub in s]. *)
Fixpoint occurs (sub s : string) : bool :=
  String.prefix sub s
  || match s with
     | EmptyString => false
     | String _ s' => occurs sub s'
     end.

(** [s.replace('', new)]: [new] before every character and at the end. *)
Fixpoint replace_empty (new s : string) : string :=
  new +:+ match s with
          | EmptyString => EmptyString
          | String c s' => String c (replace_empty new s')
          end.

(** [s.replace(old, new)] for a non-empty [old], scanning from the left;
    [skip] counts the characters of a match still to be dropped. *)
Fixpoint replace_from (skip : nat) (old new s : string) : string :=
  match s with
  | EmptyString => EmptyString
  | String c s' =>
      match skip with
      | S k => replace_from k old new s'
      | O =>
          if String.prefix old s
          then new +:+ replace_from (String.length old - 1) old new s'
          else String c (replace_from 0 old new s')
      end
  end.

(** [s.replace(old, new)]. *)
Definition replace (s old new : string) : string :=
  match old with
  | EmptyString => replace_empty new s
  | String _ _ => replace_from 0 old new s
  end.

(** [old] matches at none of the first [n] positions of [s]. *)
Fixpoint no_match_before (old : string) (n : nat) (s : string) : bool :=
  match n with
  | O => true
  | S n' =>
      negb (String.prefix old s)
      && match s with
         | EmptyString => true
         | String _ s' => no_match_before old n' s'
         end
  end.

(** [sep.join(xs)]. *)
Definition join (sep : string) (xs : list string) : string := String.concat sep xs.

(** The character [c] occurs in [s]. *)
Fixpoint has_char (c : ascii) (s : string) : bool :=
  match s with
  | EmptyString => false
  | String c' s' => Ascii.eqb c c' || has_char c s'
  end.

End Str.

(** ** The scanner and the driver of [analyze_biopro_comprehensive.py] *)

Module Analyzer.

(** An element of the list returned by [extract_fields]. *)
Module Field.
Record t : Type := mk {
  name : string;
  type : string
}.
End Field.

(** The [event_info] dict of [_process_event_file]. *)
Module EventInfo.
Record t : Type := mk {
  name : string;
  type : string;
  version : string;
  fields : list Field.t;
  file_path : string;
  direction : string
}.
End EventInfo.

(** The dict returned by [_build_service_info]. *)
Module ServiceInfo.
Record t : Type := mk {
  name : string;
  repository : string;
  purpose : string;
  publishes : list string;
  consumes : list string;
  events : list EventInfo.t
}.
End ServiceInfo.

(** The dict returned by [RepositoryAnalyzer.analyze]; ["path"] is absent
    when the repository directory does not exist. *)
Module RepoInfo.
Record t : Type := mk {
  name : string;
  path : option string;
  services : list ServiceInfo.t
}.
End RepoInfo.

(** A value of the [REPOSITORIES] dict. *)
Module RepoConfig.
Record t : Type := mk {
  path : string;
  services : list string
}.
End RepoConfig.

(** What the scripts take from their host and what is not modelled here:
    the file system, [pathlib], [str.lower] and the regular-expression
    scans of a file's text. Paths are carried as strings. *)
Class Host : Type := {
  (** [Path(filepath).name]. *)
  path_name : string -> string;
  (** [s.lower()]. *)
  lower : string -> string;
  (** [extract_class_name(content, filepath)]. *)
  extract_class_name : string -> string -> string;
  (** [extract_fields(content)]. *)
  extract_fields : string -> list Field.t;
  (** [match.group(1)] of every match, in order, of the listener pattern
      (a [public void] method with a [\w+Event] parameter) in the text. *)
  listener_events : string -> list string;
  (** The same for the producer pattern ([kafkaTemplate.send(..., \w+Event]). *)
  producer_events : string -> list string;
  (** [Path(p).exists()]. *)
  path_exists : string -> bool;
  (** [str(Path(a) / b)]. *)
  path_join : string -> string -> string;
  (** [str(Path(p))]. *)
  path_str : string -> string;
  (** [Path(service_path).rglob("*.java")]: each [str(jfile)] with its
      text, or [None] when [read_text] raises. *)
  rglob_java : string -> list (string * option string)
}.

(** [JavaEventExtractor.extract_event_type]. *)
Definition extract_event_type (content class_name : string) : string :=
  if negb (Str.occurs "Event" class_name) then "unknown"
  else if Str.occurs "Created" class_name then "CREATED"
  else if Str.occurs "Updated" class_name || Str.occurs "Modified" class_name
  then "UPDATED"
  else if Str.occurs "Deleted" class_name || Str.occurs "Removed" class_name
  then "DELETED"
  else if Str.occurs "Cancelled" class_name then "CANCELLED"
  else if Str.occurs "Completed" class_name then "COMPLETED"
  else if Str.occurs "Received" class_name then "RECEIVED"
  else if Str.occurs "Assigned" class_name then "ASSIGNED"
  else if Str.occurs "Quarantine" class_name then "QUARANTINE"
  else if Str.occurs "Unsuitable" class_name then "UNSUITABLE"
  else "DOMAIN_EVENT".


(** The state of a [ServiceAnalyzer]. *)
Record ServiceAnalyzer : Type := mkAnalyzer {
  repo_name : string;
  service_name : string;
  service_path : string;
  published_events : list string;
  consumed_events : list string;
  event_details : list EventInfo.t
}.

(** [ServiceAnalyzer(repo_name, service_name, service_path)]. *)
Definition new_analyzer (repo_name service_name service_path : string)
  : ServiceAnalyzer :=
  {| repo_name := repo_name; service_name := service_name;
     service_path := service_path;
     published_events := []; consumed_events := []; event_details := [] |}.

(** The table of [_infer_purpose]. *)
Definition purposes : list (string * string) :=
  [("collections", "Manages blood collection interfaces and donation processing");
   ("customer", "Manages customer information and relationships");
   ("eventbridge", "Bridges events between distribution services");
   ("inventory", "Manages blood product inventory");
   ("irradiation", "Manages blood product irradiation processing");
   ("order", "Manages blood product orders");
   ("partnerorderprovider", "Provides partner order integration");
   ("receiving", "Manages receiving of blood products");
   ("recoveredplasmashipping", "Manages recovered plasma shipping");
   ("shipping", "Manages blood product shipping");
   ("eventmanagement", "Manages donor events and incidents");
   ("history", "Manages donor history");
   ("notification", "Manages notifications");
   ("testresultmanagement", "Manages test results");
   ("device", "Manages medical devices");
   ("research", "Manages research operations");
   ("role", "Manages user roles and permissions");
   ("supply", "Manages medical supplies")].

(** [d.get(k, default)] on a literal dict. *)
Fixpoint table_get (d : list (string * string)) (k default : string) : string :=
  match d with
  | [] => default
  | (k', v) :: d' => if decide (k' = k) then v else table_get d' k default
  end.

(** [ServiceAnalyzer._infer_purpose]. *)
Definition _infer_purpose (self : ServiceAnalyzer) : string :=
  table_get purposes (service_name self)
            ("Manages " +:+ service_name self +:+ " operations").

(** [sorted(list(set(xs)))]. *)
Definition sorted_set (xs : list string) : list string :=
  sorted (elements (list_to_set xs : gset string)).

(** [ServiceAnalyzer._build_service_info]. *)
Definition _build_service_info (self : ServiceAnalyzer) : ServiceInfo.t :=
  {| ServiceInfo.name := service_name self;
     ServiceInfo.repository := repo_name self;
     ServiceInfo.purpose := _infer_purpose self;
     ServiceInfo.publishes := sorted_set (published_events self);
     ServiceInfo.consumes := sorted_set (consumed_events self);
     ServiceInfo.events := event_details self |}.

(** The keys of a service dict that [map_flows] reads. *)
Definition to_service (info : ServiceInfo.t) : Comprehensive.Service.t :=
  {| Comprehensive.Service.name := ServiceInfo.name info;
     Comprehensive.Service.publishes := ServiceInfo.publishes info;
     Comprehensive.Service.consumes := ServiceInfo.consumes info |}.

Definition to_repo (info : RepoInfo.t) : Comprehensive.Repo.t :=
  {| Comprehensive.Repo.name := RepoInfo.name info;
     Comprehensive.Repo.services := to_service <$> RepoInfo.services info |}.

(** [pub]/[con] of the orphaned-events listings:
    [', '.join(xs) if xs else 'NONE']. *)
Definition join_or_none (xs : list string) : string :=
  match xs with
  | [] => "NONE"
  | _ :: _ => Str.join ", " xs
  end.

(** The [REPOSITORIES] dict, in insertion order. *)
Definition REPOSITORIES : list (string * RepoConfig.t) :=
  [("biopro-interface",
    {| RepoConfig.path := "C:/Users/MelvinJones/work/biopro/biopro-interface";
       RepoConfig.services := ["collections"] |});
   ("biopro-distribution",
    {| RepoConfig.path := "C:/Users/MelvinJones/work/biopro/biopro-distribution";
       RepoConfig.services :=
         ["customer"; "eventbridge"; "inventory"; "irradiation"; "order";
          "partnerorderprovider"; "receiving"; "recoveredplasmashipping";
          "shipping"] |});
   ("biopro-donor",
    {| RepoConfig.path := "C:/Users/MelvinJones/work/biopro/biopro-donor";
       RepoConfig.services :=
         ["eventmanagement"; "history"; "notification"; "testresultmanagement"] |});
   ("biopro-operations",
    {| RepoConfig.path := "C:/Users/MelvinJones/work/biopro/biopro-operations";
       RepoConfig.services := ["device"; "research"; "role"; "supply"] |})].

Section WithHost.
Context `{Host}.

(** [JavaEventExtractor.is_event_file]. *)
Definition is_event_file (filepath : string) : bool :=
  let filename := path_name filepath in
  if Str.occurs "Event" filename && Str.endswith filename ".java" then
    if negb (Str.occurs "Test" filename) && negb (Str.occurs "/test/" filepath)
    then
      if negb (existsb (fun x => Str.occurs x filename)
                       ["AbstractEvent"; "DomainEvent"; "EventMessage"])
      then true
      else false
    else false
  else false.

(** [JavaEventExtractor.is_listener_file]. *)
Definition is_listener_file (filepath : string) : bool :=
  let filename := path_name filepath in
  Str.occurs "Listener" filename && Str.endswith filename ".java"
  && negb (Str.occurs "/test/" filepath).

(** [JavaEventExtractor.is_producer_file]. *)
Definition is_producer_file (filepath : string) : bool :=
  let filename := path_name filepath in
  (Str.occurs "Producer" filename || Str.occurs "Publisher" filename)
  && Str.endswith filename ".java"
  && negb (Str.occurs "/test/" filepath).

(** [ServiceAnalyzer._process_event_file]. *)
Definition _process_event_file (self : ServiceAnalyzer) (filepath content : string)
  : ServiceAnalyzer :=
  let class_name := extract_class_name content filepath in
  if negb (Str.endswith class_name "Event") then self
  else
    let event_type := extract_event_type content class_name in
    let fields := extract_fields content in
    let is_outbound :=
      Str.occurs "output" filepath || Str.occurs "producer" (lower filepath)
      || Str.occurs "outbound" (lower filepath) in
    let is_inbound :=
      Str.occurs "input" filepath || Str.occurs "listener" (lower filepath)
      || Str.occurs "consumer" (lower filepath)
      || Str.occurs "inbound" (lower filepath) in
    let event_info :=
      {| EventInfo.name := class_name;
         EventInfo.type := event_type;
         EventInfo.version := "1.0";
         EventInfo.fields := fields;
         EventInfo.file_path := filepath;
         EventInfo.direction :=
           if is_outbound then "outbound"
           else if is_inbound then "inbound" else "unknown" |} in
    {| repo_name := repo_name self; service_name := service_name self;
       service_path := service_path self;
       published_events :=
         if is_outbound then published_events self ++ [class_name]
         else published_events self;
       consumed_events :=
         if is_outbound then consumed_events self
         else if is_inbound then consumed_events self ++ [class_name]
         else consumed_events self;
       event_details := event_details self ++ [event_info] |}.

(** [ServiceAnalyzer._process_listener_file]. *)
Definition _process_listener_file (self : ServiceAnalyzer) (filepath content : string)
  : ServiceAnalyzer :=
  {| repo_name := repo_name self; service_name := service_name self;
     service_path := service_path self;
     published_events := published_events self;
     consumed_events := foldl push (consumed_events self) (listener_events content);
     event_details := event_details self |}.

(** [ServiceAnalyzer._process_producer_file]. *)
Definition _process_producer_file (self : ServiceAnalyzer) (filepath content : string)
  : ServiceAnalyzer :=
  {| repo_name := repo_name self; service_name := service_name self;
     service_path := service_path self;
     published_events := foldl push (published_events self) (producer_events content);
     consumed_events := consumed_events self;
     event_details := event_details self |}.

(** Body of the loop [for jfile in java_files] of [ServiceAnalyzer.analyze]:
    a file whose text cannot be read is skipped with a warning. *)
Definition process_file (self : ServiceAnalyzer) (jfile : string * option string)
  : ServiceAnalyzer :=
  match jfile.2 with
  | None => self
  | Some content =>
      let filepath := jfile.1 in
      if is_event_file filepath then _process_event_file self filepath content
      else if is_listener_file filepath
      then _process_listener_file self filepath content
      else if is_producer_file filepath
      then _process_producer_file self filepath content
      else self
  end.

(** The analyzer after the loop over a list of files. *)
Definition scan_files (self : ServiceAnalyzer) (java_files : list (string * option string))
  : ServiceAnalyzer :=
  foldl process_file self java_files.

(** [ServiceAnalyzer.analyze]. *)
Definition analyze (self : ServiceAnalyzer) : ServiceInfo.t :=
  _build_service_info (scan_files self (rglob_java (service_path self))).

(** Body of the loop [for service_name in self.repo_config['services']]. *)
Definition analyze_service (repo_name repo_path : string)
    (services : list ServiceInfo.t) (service_name : string)
  : list ServiceInfo.t :=
  let service_path := path_join (path_join repo_path "backend") service_name in
  if path_exists service_path
  then services ++ [analyze (new_analyzer repo_name service_name service_path)]
  else services.

(** [RepositoryAnalyzer(repo_name, repo_config).analyze()]. *)
Definition analyze_repository (repo_name : string) (repo_config : RepoConfig.t)
  : RepoInfo.t :=
  let repo_path := RepoConfig.path repo_config in
  if negb (path_exists repo_path)
  then {| RepoInfo.name := repo_name; RepoInfo.path := None;
          RepoInfo.services := [] |}
  else
    {| RepoInfo.name := repo_name;
       RepoInfo.path := Some (path_str repo_path);
       RepoInfo.services :=
         foldl (analyze_service repo_name repo_path) []
               (RepoConfig.services repo_config) |}.

(** The analysis part of [main]: one [RepositoryAnalyzer] per entry. *)
Definition analyze_all (config : list (string * RepoConfig.t)) : list RepoInfo.t :=
  (fun entry => analyze_repository entry.1 entry.2) <$> config.

(** The ["event_flows"] and ["summary"] entries of the inventory of [main]. *)
Definition main_event_flows (config : list (string * RepoConfig.t))
  : list Comprehensive.EventFlow :=
  Comprehensive.build (to_repo <$> analyze_all config).

Definition main_summary (config : list (string * RepoConfig.t))
  : Comprehensive.Summary :=
  Comprehensive.summary (to_repo <$> analyze_all config) (main_event_flows config).

End WithHost.

(** A small host for the examples: names are the text after the last "/",
    every path exists, a file's text is its class name, and every service
    directory holds the same four files. *)
Fixpoint after_last_slash (acc s : string) : string :=
  match s with
  | EmptyString => acc
  | String c s' =>
      if Ascii.eqb c "/" then after_last_slash s' s' else after_last_slash acc s'
  end.

Definition example_host : Host :=
  {| path_name := fun p => after_last_slash p p;
     lower := fun s => s;
     extract_class_name := fun content filepath => content;
     extract_fields := fun _ => [];
     listener_events :=
       fun content => if Str.endswith content "Event" then [content] else [];
     producer_events :=
       fun content => if Str.endswith content "Event" then [content] else [];
     path_exists := fun _ => true;
     path_join := fun a b => a +:+ "/" +:+ b;
     path_str := fun p => p;
     rglob_java :=
       fun p => [(p +:+ "/output/OrderCreatedEvent.java", Some "OrderCreatedEvent");
                 (p +:+ "/PaymentListener.java", Some "PaymentEvent");
                 (p +:+ "/test/FooEvent.java", Some "FooEvent");
                 (p +:+ "/Broken.java", None)] |}.

End Analyzer.

(** ** The scanner and the driver of [extract_with_consumers.py] *)

Module Extractor.
Import WithConsumers.

(** An element of the [REPOS] list. *)
Module Repo.
Record t : Type := mk {
  name : string;
  path : string;
  services : list string
}.
End Repo.

(** The [service_record] dict of [main]. *)
Module ServiceRecord.
Record t : Type := mk {
  name : string;
  repository : string;
  events_published : nat;
  events_consumed : nat;
  published_events : list string;
  consumed_events : list string;
  event_details : list EventInfo
}.
End ServiceRecord.

(** The ["summary"] entry of the output of [main]. *)
Module Summary.
Record t : Type := mk {
  repositories : nat;
  services : nat;
  events : nat;
  event_flows : nat;
  events_with_consumers : nat
}.
End Summary.

(** The [output] dict of [main]. *)
Module Output.
Record t : Type := mk {
  summary : Summary.t;
  services : list ServiceRecord.t;
  events : list EventInfo;
  event_flows : list (string * Flow)
}.
End Output.

(** What the script takes from its host and what is not modelled here: the
    file system, [os.path], the regular-expression scans, and the order in
    which a Python set hands out its elements, about which only what every
    order has in common is known. *)
Class Host : Type := {
  (** [os.path.basename(file_path)]. *)
  basename : string -> string;
  (** The text of a file, or [None] when [open] or [read] raises. *)
  read_text : string -> option string;
  (** [match.group(1)] of every match, in order, of the import pattern. *)
  import_events : string -> list string;
  (** The same for the generic-parameter pattern [<(\w+Event)>]. *)
  generic_events : string -> list string;
  (** [extract_event_info(file_path)], of which the name is kept; [None]
      when the function returns [None]. *)
  extract_event_info : string -> option EventInfo;
  (** [find_event_files(service_path)]. *)
  find_event_files : string -> list string;
  (** [find_listener_files(service_path)]. *)
  find_listener_files : string -> list string;
  (** [os.path.exists(p)]. *)
  path_exists : string -> bool;
  (** [os.path.join(a, b)]. *)
  path_join : string -> string -> string;
  (** [list(s)] for a set [s] of strings. *)
  set_order : gset string -> list string;
  set_order_NoDup : forall s, NoDup (set_order s);
  set_order_elem_of : forall s x, x ∈ set_order s <-> x ∈ s
}.

(** [sum(1 for flow in event_flows.values() if flow['consumers'])]. *)
Definition events_with_consumers (event_flows : list (string * Flow)) : nat :=
  length (filter (fun entry => consumers entry.2 <> []) event_flows).

(** The [consumed_events] list of [create_service_mdx] in
    [create_complete_eventcatalog.py], which reads the [event_flows] this
    script wrote. *)
Definition consumed_events_of (service_name : string)
    (event_flows : list (string * Flow)) : list string :=
  (fun entry => Str.replace entry.1 "Event" "")
    <$> filter (fun entry => service_name ∈ consumers entry.2) event_flows.

Section WithHost.
Context `{Host}.

(** [extract_consumed_events_from_listener]. *)
Definition extract_consumed_events_from_listener (file_path : string)
  : list string :=
  match read_text file_path with
  | None => []
  | Some content =>
      let filename := basename file_path in
      let consumed_events :=
        if Str.endswith filename "Listener.java"
        then [Str.replace filename "Listener.java" "Event"]
        else [] in
      let consumed_events := foldl push consumed_events (import_events content) in
      foldl push consumed_events (generic_events content)
  end.

(** [service_events] of one service: the event files that yield an info. *)
Definition scan_events (service_path : string) : list EventInfo :=
  omap extract_event_info (find_event_files service_path).

(** [service_consumed_events] of one service. *)
Definition scan_consumed (service_path : string) : gset string :=
  list_to_set (find_listener_files service_path
                 ≫= extract_consumed_events_from_listener).

(** What the tracking block then reads of the service. *)
Definition scan_service (service_name service_path : string) : Scan :=
  {| service_name := service_name;
     service_events := scan_events service_path;
     consumed_event_names := set_order (scan_consumed service_path) |}.

Definition service_record (repo : Repo.t) (scan : Scan) : ServiceRecord.t :=
  {| ServiceRecord.name := service_name scan;
     ServiceRecord.repository := Repo.name repo;
     ServiceRecord.events_published := length (service_events scan);
     ServiceRecord.events_consumed := length (consumed_event_names scan);
     ServiceRecord.published_events := published_event_names scan;
     ServiceRecord.consumed_events := consumed_event_names scan;
     ServiceRecord.event_details := service_events scan |}.

(** [all_events], [all_services] and [event_flows] of [main]. *)
Record State : Type := mkState {
  all_events : list EventInfo;
  all_services : list ServiceRecord.t;
  event_flows : list (string * Flow)
}.

(** Body of the loop [for service_name in repo['services']]. *)
Definition process_service (repo : Repo.t) (st : State) (service_name : string)
  : option State :=
  let service_path := path_join (Repo.path repo) service_name in
  if negb (path_exists service_path) then Some st
  else
    let scan := scan_service service_name service_path in
    flows ← track_service (event_flows st) scan;
    Some {| all_events := all_events st ++ service_events scan;
            all_services := all_services st ++ [service_record repo scan];
            event_flows := flows |}.

(** Body of the loop [for repo in REPOS]. *)
Definition process_repo (st : State) (repo : Repo.t) : option State :=
  for_each (process_service repo) st (Repo.services repo).

(** [main], up to the [output] dict; [None] stands for an exception. *)
Definition main (REPOS : list Repo.t) : option Output.t :=
  st ← for_each process_repo
         {| all_events := []; all_services := []; event_flows := [] |} REPOS;
  Some {| Output.summary :=
            {| Summary.repositories := length REPOS;
               Summary.services := length (all_services st);
               Summary.events := length (all_events st);
               Summary.event_flows := length (event_flows st);
               Summary.events_with_consumers :=
                 events_with_consumers (event_flows st) |};
          Output.services := all_services st;
          Output.events := all_events st;
          Output.event_flows := event_flows st |}.

(** The services [main] scans, in order: those whose directory exists. *)
Definition scans_of_repo (repo : Repo.t) : list Scan :=
  (fun service_name => scan_service service_name
                                    (path_join (Repo.path repo) service_name))
    <$> filter (fun service_name =>
                  path_exists (path_join (Repo.path repo) service_name) = true)
               (Repo.services repo).

Definition scans_of (REPOS : list Repo.t) : list Scan := REPOS ≫= scans_of_repo.

End WithHost.

(** Two runs over the same services that differ only in the order in which
    each service's set of consumed names was listed. *)
Definition same_up_to_set_order (scan scan' : Scan) : Prop :=
  service_name scan = service_name scan'
  /\ service_events scan = service_events scan'
  /\ consumed_event_names scan ≡ₚ consumed_event_names scan'.

(** The text after the last [sep] character: [basename] on a POSIX host. *)
Fixpoint after_last (sep : ascii) (acc s : string) : string :=
  match s with
  | EmptyString => acc
  | String c s' =>
      if Ascii.eqb c sep then after_last sep s' s' else after_last sep acc s'
  end.

(** A small host for the examples: a file's text is an event name, every
    service directory exists and holds one event file and one listener. *)
Definition example_host : Host :=
  {| basename := fun p => after_last "/" p p;
     read_text := fun p => if Str.occurs "Broken" p then None else Some "PaymentEvent";
     import_events := fun content => [content];
     generic_events := fun content => [content; "RefundEvent"];
     extract_event_info := fun p => Some {| name := "OrderCreatedEvent" |};
     find_event_files := fun p => [p +:+ "/domain/event/OrderCreatedEvent.java"];
     find_listener_files := fun p => [p +:+ "/OrderListener.java"];
     path_exists := fun _ => true;
     path_join := fun a b => a +:+ "/" +:+ b;
     set_order := elements;
     set_order_NoDup := fun s => NoDup_elements s;
     set_order_elem_of := fun s x => elem_of_elements s x |}.

End Extractor.

(** ** The tracking block of [extract_all_biopro_repos.py]

    The earlier script fills the same dict without the membership tests. *)

Module Unguarded.
Import WithConsumers.

(** An element of the list returned by [extract_kafka_consumers]; the
    tracking block reads only its ['event']. *)
Record Consumer : Type := mkConsumer {
  event : string
}.

(** What the tracking block reads of one scanned service. *)
Record Scan : Type := mkScan {
  service_name : string;
  service_events : list EventInfo;
  service_consumers : list Consumer
}.

(** Body of [for event in service_events] (lines 215-221). *)
Definition track_publisher (service_name : string)
    (event_flows : list (string * Flow)) (event : EventInfo)
  : option (list (string * Flow)) :=
  let event_flows :=
    if negb (contains event_flows (name event))
    then setitem event_flows (name event) {| publishers := []; consumers := [] |}
    else event_flows in
  flow ← getitem event_flows (name event);
  Some (setitem event_flows (name event)
          {| publishers := publishers flow ++ [service_name];
             consumers := consumers flow |}).

(** Body of [for consumer in service_consumers] (lines 223-230). *)
Definition track_consumer (service_name : string)
    (event_flows : list (string * Flow)) (consumer : Consumer)
  : option (list (string * Flow)) :=
  let event_name := event consumer in
  let event_flows :=
    if negb (contains event_flows event_name)
    then setitem event_flows event_name {| publishers := []; consumers := [] |}
    else event_flows in
  flow ← getitem event_flows event_name;
  Some (setitem event_flows event_name
          {| publishers := publishers flow;
             consumers := consumers flow ++ [service_name] |}).

(** The tracking block for one service. *)
Definition track_service (event_flows : list (string * Flow)) (scan : Scan)
  : option (list (string * Flow)) :=
  event_flows ← for_each (track_publisher (service_name scan)) event_flows
                         (service_events scan);
  for_each (track_consumer (service_name scan)) event_flows
           (service_consumers scan).

(** The loops over repositories and services, from [event_flows = {}]. *)
Definition track_all (scans : list Scan) : option (list (string * Flow)) :=
  for_each track_service [] scans.

(** The same service as the later script's tracking block reads it. *)
Definition to_scan (scan : Scan) : WithConsumers.Scan :=
  {| WithConsumers.service_name := service_name scan;
     WithConsumers.service_events := service_events scan;
     WithConsumers.consumed_event_names := event <$> service_consumers scan |}.

(** *** The same steps without the error channel *)

Definition add (sd : Side) (s : string) (d : list (string * Flow)) (k : string)
  : list (string * Flow) :=
  setitem d k (side_add sd s (default empty_flow (getitem d k))).

Definition step (d : list (string * Flow)) (scan : Scan) : list (string * Flow) :=
  foldl (add Con (service_name scan))
        (foldl (add Pub (service_name scan)) d (name <$> service_events scan))
        (event <$> service_consumers scan).

End Unguarded.

(** * Properties *)

(** ** The order on strings *)

Module PyStrFacts.
Import PyStr.

Lemma ascii_compare_refl (a : ascii) : Ascii.compare a a = Eq.
Proof. unfold Ascii.compare. apply N.compare_refl. Qed.

Lemma ascii_compare_eq (a b : ascii) : Ascii.compare a b = Eq -> a = b.
Proof. apply Ascii.compare_eq_iff. Qed.

Lemma ascii_compare_lt_trans (a b c : ascii) :
  Ascii.compare a b = Lt -> Ascii.compare b c = Lt -> Ascii.compare a c = Lt.
Proof.
  unfold Ascii.compare. rewrite !N.compare_lt_iff. apply N.lt_trans.
Qed.

Lemma compare_refl (s : string) : String.compare s s = Eq.
Proof.
  induction s as [|a s IH]; simpl; [reflexivity|].
  now rewrite ascii_compare_refl.
Qed.

Lemma compare_lt_trans (s1 : string) :
  forall s2 s3, String.compare s1 s2 = Lt -> String.compare s2 s3 = Lt ->
                String.compare s1 s3 = Lt.
Proof.
  induction s1 as [|a s1 IH]; intros [|b s2] [|c s3]; simpl; try congruence.
  destruct (Ascii.compare a b) eqn:Hab; try congruence;
    destruct (Ascii.compare b c) eqn:Hbc; try congruence; intros H12 H23.
  - apply ascii_compare_eq in Hab, Hbc. subst.
    rewrite ascii_compare_refl. eauto.
  - apply ascii_compare_eq in Hab. subst. now rewrite Hbc.
  - apply ascii_compare_eq in Hbc. subst. now rewrite Hab.
  - now rewrite (ascii_compare_lt_trans a b c).
Qed.

Lemma lt_compare (s1 s2 : string) : lt s1 s2 <-> String.compare s1 s2 = Lt.
Proof.
  unfold lt, String.ltb. destruct (String.compare s1 s2); intuition congruence.
Qed.

Lemma le_lt_or_eq (s1 s2 : string) : le s1 s2 <-> lt s1 s2 \/ s1 = s2.
Proof.
  rewrite lt_compare. unfold le, String.leb.
  destruct (String.compare s1 s2) eqn:Hc.
  - apply String.compare_eq_iff in Hc. intuition.
  - intuition.
  - split; [congruence|]. intros [?| ->]; [congruence|].
    rewrite compare_refl in Hc. congruence.
Qed.

Lemma lt_irrefl (s : string) : ~ lt s s.
Proof. rewrite lt_compare, compare_refl. congruence. Qed.

#[global] Instance lt_trans : Transitive lt.
Proof.
  intros s1 s2 s3. rewrite !lt_compare. apply compare_lt_trans.
Qed.

#[global] Instance le_refl : Reflexive le.
Proof. intros s. apply le_lt_or_eq. now right. Qed.

#[global] Instance le_trans : Transitive le.
Proof.
  intros s1 s2 s3. rewrite !le_lt_or_eq.
  intros [H12| ->] [H23| ->]; eauto. left. now transitivity s2.
Qed.

#[global] Instance le_antisym : AntiSymm (=) le.
Proof. intros s1 s2. apply String.leb_antisym. Qed.

#[global] Instance le_total : Total le.
Proof. intros s1 s2. apply String.leb_total. Qed.

Lemma le_neq_lt (s1 s2 : string) : le s1 s2 -> s1 <> s2 -> lt s1 s2.
Proof. rewrite le_lt_or_eq. intuition. Qed.

End PyStrFacts.

(** ** [sorted] *)

Lemma sorted_Permutation (xs : list string) : sorted xs ≡ₚ xs.
Proof. apply merge_sort_Permutation. Qed.

Lemma sorted_StronglySorted (xs : list string) :
  StronglySorted PyStr.le (sorted xs).
Proof. apply StronglySorted_merge_sort; apply _. Qed.

Lemma sorted_elem_of (xs : list string) (x : string) : x ∈ sorted xs <-> x ∈ xs.
Proof. now rewrite sorted_Permutation. Qed.

Lemma sorted_NoDup (xs : list string) : NoDup xs -> NoDup (sorted xs).
Proof. now rewrite sorted_Permutation. Qed.

(** Sorting does not depend on the order in which the elements arrive. *)
Lemma sorted_perm_eq (xs ys : list string) : xs ≡ₚ ys -> sorted xs = sorted ys.
Proof.
  intros Hp. apply (StronglySorted_unique PyStr.le);
    auto using sorted_StronglySorted.
  now rewrite !sorted_Permutation.
Qed.

(** Any sort agrees with [sorted]: an ascending rearrangement is unique. *)
Lemma sorted_unique (xs ys : list string) :
  ys ≡ₚ xs -> StronglySorted PyStr.le ys -> ys = sorted xs.
Proof.
  intros Hp Hs. apply (StronglySorted_unique PyStr.le);
    auto using sorted_StronglySorted.
  now rewrite sorted_Permutation.
Qed.

(** On duplicate-free input the result is strictly ascending. *)
Lemma sorted_strict (xs : list string) :
  NoDup xs -> StronglySorted PyStr.lt (sorted xs).
Proof.
  intros Hnd. apply sorted_NoDup in Hnd.
  pose proof (sorted_StronglySorted xs) as Hs.
  induction Hs as [|x l Hs IH Hall]; [constructor|].
  apply NoDup_cons in Hnd as [Hx Hnd].
  constructor; [auto|].
  apply Forall_forall. intros y Hy.
  apply PyStrFacts.le_neq_lt.
  - rewrite Forall_forall in Hall. auto.
  - intros ->. auto.
Qed.

(** Two duplicate-free listings of one set sort to the same list. *)
Lemma sorted_same_elements (xs ys : list string) :
  NoDup xs -> NoDup ys -> (forall x, x ∈ xs <-> x ∈ ys) -> sorted xs = sorted ys.
Proof.
  intros Hx Hy Hxy. apply sorted_perm_eq. now apply NoDup_Permutation.
Qed.

(** ** [push], [first_seen] and [mentions] *)

Lemma push_elem_of (acc : list string) (x y : string) :
  y ∈ push acc x <-> y ∈ acc \/ y = x.
Proof.
  unfold push. destruct (decide (x ∈ acc)) as [Hin|Hout].
  - split; [auto|]. intros [?| ->]; auto.
  - rewrite elem_of_app, list_elem_of_singleton. reflexivity.
Qed.

Lemma push_NoDup (acc : list string) (x : string) :
  NoDup acc -> NoDup (push acc x).
Proof.
  intros Hnd. unfold push. destruct (decide (x ∈ acc)) as [Hin|Hout]; [auto|].
  apply NoDup_app. repeat split; auto.
  - intros y Hy Hy'. apply list_elem_of_singleton in Hy'. now subst.
  - apply NoDup_singleton.
Qed.

Lemma push_seen (acc : list string) (x : string) : x ∈ acc -> push acc x = acc.
Proof. intros Hin. unfold push. now rewrite decide_True. Qed.

Lemma push_new (acc : list string) (x : string) :
  x ∉ acc -> push acc x = acc ++ [x].
Proof. intros Hout. unfold push. now rewrite decide_False. Qed.

Lemma foldl_push_elem_of (xs : list string) (y : string) :
  forall acc, y ∈ foldl push acc xs <-> y ∈ acc \/ y ∈ xs.
Proof.
  induction xs as [|x xs IH]; intros acc; simpl.
  - rewrite elem_of_nil. tauto.
  - rewrite IH, push_elem_of, elem_of_cons. tauto.
Qed.

Lemma foldl_push_NoDup (xs : list string) :
  forall acc, NoDup acc -> NoDup (foldl push acc xs).
Proof.
  induction xs as [|x xs IH]; intros acc Hnd; simpl; auto using push_NoDup.
Qed.

(** Offering only what is already there changes nothing. *)
Lemma foldl_push_seen (xs : list string) :
  forall acc, (forall x, x ∈ xs -> x ∈ acc) -> foldl push acc xs = acc.
Proof.
  induction xs as [|x xs IH]; intros acc Hall; simpl; [reflexivity|].
  rewrite push_seen by (apply Hall; left).
  apply IH. intros y Hy. apply Hall. now right.
Qed.

(** Offering fresh, pairwise distinct elements appends them in order. *)
Lemma foldl_push_fresh (xs : list string) :
  forall acc, NoDup (acc ++ xs) -> foldl push acc xs = acc ++ xs.
Proof.
  induction xs as [|x xs IH]; intros acc Hnd; simpl.
  - now rewrite app_nil_r.
  - rewrite push_new.
    + rewrite IH; rewrite <- app_assoc; [reflexivity|exact Hnd].
    + apply NoDup_app in Hnd as (_ & Hdisj & _).
      intros Hin. apply (Hdisj x Hin). left.
Qed.

Lemma foldl_push_app (xs ys acc : list string) :
  foldl push acc (xs ++ ys) = foldl push (foldl push acc xs) ys.
Proof. apply foldl_app. Qed.

Lemma first_seen_elem_of (xs : list string) (y : string) :
  y ∈ first_seen xs <-> y ∈ xs.
Proof.
  unfold first_seen. rewrite foldl_push_elem_of, elem_of_nil. tauto.
Qed.

Lemma first_seen_NoDup (xs : list string) : NoDup (first_seen xs).
Proof. apply foldl_push_NoDup, NoDup_nil_2. Qed.

Lemma first_seen_id (xs : list string) : NoDup xs -> first_seen xs = xs.
Proof. intros Hnd. unfold first_seen. now rewrite foldl_push_fresh. Qed.

Lemma first_seen_nil_iff (xs : list string) : first_seen xs = [] <-> xs = [].
Proof.
  split; [|now intros ->].
  intros Hfs. destruct xs as [|x xs]; [reflexivity|].
  assert (x ∈ first_seen (x :: xs)) as Hin
    by (apply first_seen_elem_of; left).
  rewrite Hfs in Hin. now apply elem_of_nil in Hin.
Qed.

(** The accumulator is a prefix: what was seen first stays first. *)
Lemma foldl_push_prefix (xs : list string) :
  forall acc, exists tl, foldl push acc xs = acc ++ tl.
Proof.
  induction xs as [|x xs IH]; intros acc; simpl.
  - exists []. now rewrite app_nil_r.
  - destruct (IH (push acc x)) as [tl ->]. unfold push.
    destruct (decide (x ∈ acc)); [eauto|].
    exists ([x] ++ tl). now rewrite app_assoc.
Qed.

(** The recursive reading of first-seen order: the head comes first, and
    the rest is the first-seen order of the tail without the head. *)
Lemma foldl_push_filter (xs : list string) :
  forall acc,
    foldl push acc xs = acc ++ filter (fun y => y ∉ acc) (first_seen xs).
Proof.
  induction xs as [|x xs IH] using rev_ind; intros acc.
  - simpl. now rewrite app_nil_r.
  - unfold first_seen. rewrite !foldl_app. simpl.
    fold (first_seen xs). rewrite IH.
    destruct (decide (x ∈ first_seen xs)) as [Hfs|Hfs].
    + rewrite (push_seen (first_seen xs)) by auto.
      destruct (decide (x ∈ acc)) as [Hacc|Hacc].
      * apply push_seen. apply elem_of_app; auto.
      * apply push_seen. rewrite elem_of_app, list_elem_of_filter. auto.
    + rewrite (push_new (first_seen xs)) by auto.
      rewrite filter_app, filter_cons, filter_nil.
      destruct (decide (x ∈ acc)) as [Hacc|Hacc].
      * rewrite decide_False by auto. rewrite app_nil_r.
        apply push_seen. apply elem_of_app; auto.
      * rewrite decide_True by auto. rewrite app_assoc.
        apply push_new. rewrite elem_of_app, list_elem_of_filter. tauto.
Qed.

Lemma first_seen_cons (x : string) (xs : list string) :
  first_seen (x :: xs) = x :: filter (fun y => y <> x) (first_seen xs).
Proof.
  unfold first_seen at 1. simpl. rewrite foldl_push_filter.
  unfold push. simpl. f_equal.
  apply list_filter_iff. intros y. rewrite list_elem_of_singleton. tauto.
Qed.

Lemma mentions_elem_of (e : string) (names : list string) (sid x : string) :
  x ∈ mentions e names sid <-> x = sid /\ e ∈ names.
Proof.
  unfold mentions. rewrite list_elem_of_bind. split.
  - intros (n & Hx & Hn). destruct (decide (n = e)) as [->|].
    + apply list_elem_of_singleton in Hx. auto.
    + now apply elem_of_nil in Hx.
  - intros [-> He]. exists e. rewrite decide_True by reflexivity.
    split; [apply list_elem_of_singleton; reflexivity|exact He].
Qed.

Lemma mentions_cons (e n : string) (names : list string) (sid : string) :
  mentions e (n :: names) sid
  = (if decide (n = e) then [sid] else []) ++ mentions e names sid.
Proof. reflexivity. Qed.

Lemma mentions_app (e : string) (xs ys : list string) (sid : string) :
  mentions e (xs ++ ys) sid = mentions e xs sid ++ mentions e ys sid.
Proof. unfold mentions. apply bind_app. Qed.

Lemma mentions_absent (e : string) (names : list string) (sid : string) :
  e ∉ names -> mentions e names sid = [].
Proof.
  induction names as [|n names IH]; intros Hout; [reflexivity|].
  rewrite mentions_cons, IH by (intros ?; apply Hout; now right).
  rewrite decide_False; [reflexivity|]. intros ->. apply Hout. left.
Qed.

(** A duplicate-free list offers the service id at most once. *)
Lemma mentions_NoDup (e : string) (names : list string) (sid : string) :
  NoDup names ->
  mentions e names sid = if decide (e ∈ names) then [sid] else [].
Proof.
  induction names as [|n names IH]; intros Hnd.
  - reflexivity.
  - apply NoDup_cons in Hnd as [Hn Hnd]. rewrite mentions_cons, IH by auto.
    destruct (decide (n = e)) as [->|Hne].
    + rewrite (decide_False (P := e ∈ names)) by auto.
      rewrite decide_True by left. reflexivity.
    + destruct (decide (e ∈ names)) as [Hin|Hout].
      * rewrite decide_True by now right. reflexivity.
      * rewrite decide_False; [reflexivity|].
        intros [?|?]%elem_of_cons; congruence.
Qed.

Lemma mentions_nil_iff (e : string) (names : list string) (sid : string) :
  mentions e names sid = [] <-> e ∉ names.
Proof.
  split; [|apply mentions_absent].
  intros Hnil Hin.
  assert (sid ∈ mentions e names sid) as H by now apply mentions_elem_of.
  rewrite Hnil in H. now apply elem_of_nil in H.
Qed.

(** ** [map_flows] *)

Module ComprehensiveFacts.
Import Comprehensive.

(** *** The two [defaultdict]s *)

Lemma dd_get_append (d : gmap string (list string)) (k v e : string) :
  dd_get (dd_append d k v) e
  = if decide (k = e) then dd_get d e ++ [v] else dd_get d e.
Proof.
  unfold dd_get, dd_append. rewrite lookup_insert.
  destruct (decide (k = e)) as [->|]; reflexivity.
Qed.

Lemma dom_dd_append (d : gmap string (list string)) (k v : string) :
  dom (dd_append d k v) = {[k]} ∪ dom d.
Proof. unfold dd_append. apply dom_insert_L. Qed.

Lemma dd_get_foldl (names : list string) (sid e : string) :
  forall d : gmap string (list string),
    dd_get (foldl (fun d n => dd_append d n sid) d names) e
    = dd_get d e ++ mentions e names sid.
Proof.
  induction names as [|n names IH]; intros d; cbn [foldl].
  - unfold mentions; simpl. now rewrite app_nil_r.
  - rewrite IH, dd_get_append, mentions_cons.
    destruct (decide (n = e)); simpl; [now rewrite <- app_assoc|reflexivity].
Qed.

Lemma dom_foldl (names : list string) (sid : string) :
  forall d : gmap string (list string),
    dom (foldl (fun d n => dd_append d n sid) d names)
    = dom d ∪ list_to_set names.
Proof.
  induction names as [|n names IH]; intros d; simpl.
  - set_solver.
  - rewrite IH, dom_dd_append. set_solver.
Qed.

(** The nested loops are one loop over the flattened facts. *)
Lemma index_service_fact (repo : Repo.t) (ix : Index) :
  foldl (index_service (Repo.name repo)) ix (Repo.services repo)
  = foldl index_fact ix (facts_of_repo repo).
Proof.
  unfold facts_of_repo. generalize (Repo.services repo) as ss.
  intros ss. revert ix. induction ss as [|s ss IH]; intros ix; simpl; auto.
Qed.

Lemma build_index_facts (repos : list Repo.t) :
  forall ix, foldl index_repo ix repos = foldl index_fact ix (facts repos).
Proof.
  induction repos as [|r repos IH]; intros ix; simpl; [reflexivity|].
  unfold facts in *. simpl. rewrite foldl_app, IH. f_equal.
  apply index_service_fact.
Qed.

Lemma index_facts_get (fs : list Fact) (e : string) :
  forall ix,
    dd_get (foldl index_fact ix fs).1 e = dd_get ix.1 e ++ pubs_of e fs
    /\ dd_get (foldl index_fact ix fs).2 e = dd_get ix.2 e ++ cons_of e fs.
Proof.
  induction fs as [|f fs IH]; intros ix; simpl.
  - now rewrite !app_nil_r.
  - destruct (IH (index_fact ix f)) as [-> ->]. unfold index_fact; simpl.
    rewrite !dd_get_foldl, <- !app_assoc. auto.
Qed.

Lemma index_facts_dom (fs : list Fact) :
  forall ix,
    all_events (foldl index_fact ix fs)
    = all_events ix ∪ list_to_set (names_of fs).
Proof.
  unfold all_events, names_of.
  induction fs as [|f fs IH]; intros ix; simpl.
  - set_solver.
  - rewrite IH. unfold index_fact; simpl. rewrite !dom_foldl.
    rewrite !list_to_set_app_L. set_solver.
Qed.

Lemma build_index_get (repos : list Repo.t) (e : string) :
  dd_get (build_index repos).1 e = pubs_of e (facts repos)
  /\ dd_get (build_index repos).2 e = cons_of e (facts repos).
Proof.
  unfold build_index. rewrite build_index_facts.
  destruct (index_facts_get (facts repos) e (∅, ∅)) as [-> ->].
  unfold dd_get; simpl. now rewrite !lookup_empty.
Qed.

Lemma build_index_events (repos : list Repo.t) :
  all_events (build_index repos) = list_to_set (names_of (facts repos)).
Proof.
  unfold build_index. rewrite build_index_facts, index_facts_dom.
  unfold all_events; simpl. rewrite !dom_empty_L. set_solver.
Qed.

(** *** What the facts offer *)

Lemma pubs_of_elem_of (e s : string) (fs : list Fact) :
  s ∈ pubs_of e fs <-> exists f, f ∈ fs /\ fact_id f = s /\ e ∈ published f.
Proof.
  unfold pubs_of. rewrite list_elem_of_bind. split.
  - intros (f & Hs & Hf). apply mentions_elem_of in Hs as [-> He]. eauto.
  - intros (f & Hf & <- & He). exists f. split; [|exact Hf].
    now apply mentions_elem_of.
Qed.

Lemma cons_of_elem_of (e s : string) (fs : list Fact) :
  s ∈ cons_of e fs <-> exists f, f ∈ fs /\ fact_id f = s /\ e ∈ consumed f.
Proof.
  unfold cons_of. rewrite list_elem_of_bind. split.
  - intros (f & Hs & Hf). apply mentions_elem_of in Hs as [-> He]. eauto.
  - intros (f & Hf & <- & He). exists f. split; [|exact Hf].
    now apply mentions_elem_of.
Qed.

Lemma names_of_elem_of (e : string) (fs : list Fact) :
  e ∈ names_of fs <-> exists f, f ∈ fs /\ (e ∈ published f \/ e ∈ consumed f).
Proof.
  unfold names_of. rewrite list_elem_of_bind. split.
  - intros (f & He & Hf). apply elem_of_app in He. eauto.
  - intros (f & Hf & He). exists f. rewrite elem_of_app. auto.
Qed.

Lemma pubs_of_Permutation (e : string) (fs fs' : list Fact) :
  fs ≡ₚ fs' -> pubs_of e fs ≡ₚ pubs_of e fs'.
Proof. intros Hp. unfold pubs_of. now rewrite Hp. Qed.

Lemma cons_of_Permutation (e : string) (fs fs' : list Fact) :
  fs ≡ₚ fs' -> cons_of e fs ≡ₚ cons_of e fs'.
Proof. intros Hp. unfold cons_of. now rewrite Hp. Qed.

Lemma names_of_Permutation (fs fs' : list Fact) :
  fs ≡ₚ fs' -> names_of fs ≡ₚ names_of fs'.
Proof. intros Hp. unfold names_of. now rewrite Hp. Qed.

Lemma nonempty_elem (l : list string) : l <> [] <-> exists s, s ∈ l.
Proof.
  destruct l as [|s l].
  - split; [congruence|]. intros [s Hs]. now apply elem_of_nil in Hs.
  - split; [|congruence]. intros _. exists s. left.
Qed.

(** A listed name has a publisher or a consumer. *)
Lemma names_of_offered (e : string) (fs : list Fact) :
  e ∈ names_of fs -> pubs_of e fs <> [] \/ cons_of e fs <> [].
Proof.
  intros (f & Hf & [He|He])%names_of_elem_of; [left|right];
    apply nonempty_elem; exists (fact_id f).
  - apply pubs_of_elem_of. eauto.
  - apply cons_of_elem_of. eauto.
Qed.

(** With set-like lists, each fact offers its id at most once. *)
Lemma pubs_of_filter (e : string) (fs : list Fact) :
  Forall (fun f => NoDup (published f)) fs ->
  pubs_of e fs = fact_id <$> filter (fun f => e ∈ published f) fs.
Proof.
  unfold pubs_of. induction 1 as [|f fs Hf _ IH]; [reflexivity|].
  rewrite bind_cons, IH, filter_cons, mentions_NoDup by exact Hf.
  destruct (decide (e ∈ published f)); reflexivity.
Qed.

Lemma cons_of_filter (e : string) (fs : list Fact) :
  Forall (fun f => NoDup (consumed f)) fs ->
  cons_of e fs = fact_id <$> filter (fun f => e ∈ consumed f) fs.
Proof.
  unfold cons_of. induction 1 as [|f fs Hf _ IH]; [reflexivity|].
  rewrite bind_cons, IH, filter_cons, mentions_NoDup by exact Hf.
  destruct (decide (e ∈ consumed f)); reflexivity.
Qed.

Lemma filter_ids_NoDup (P : Fact -> Prop) `{forall f, Decision (P f)}
    (fs : list Fact) :
  NoDup (fact_id <$> fs) -> NoDup (fact_id <$> filter P fs).
Proof.
  intros Hnd. eapply sublist_NoDup; [exact Hnd|].
  apply fmap_sublist, sublist_filter.
Qed.

(** *** The returned list *)

Lemma build_unfold (repos : list Repo.t) :
  build repos
  = make_flow (build_index repos)
      <$> sorted (elements (all_events (build_index repos))).
Proof. reflexivity. Qed.

Lemma build_events (repos : list Repo.t) :
  event <$> build repos = sorted (elements (all_events (build_index repos))).
Proof.
  rewrite build_unfold, <- list_fmap_compose.
  rewrite <- (list_fmap_id (sorted _)) at 2. now apply list_fmap_ext.
Qed.

Lemma build_elem_of (repos : list Repo.t) (fl : EventFlow) :
  fl ∈ build repos
  <-> event fl ∈ names_of (facts repos)
      /\ fl = make_flow (build_index repos) (event fl).
Proof.
  rewrite build_unfold, list_elem_of_fmap. split.
  - intros (e & -> & He). simpl. split; [|reflexivity].
    apply sorted_elem_of, elem_of_elements in He.
    rewrite build_index_events in He. now apply elem_of_list_to_set in He.
  - intros [He Hfl]. exists (event fl). split; [exact Hfl|].
    apply sorted_elem_of, elem_of_elements.
    rewrite build_index_events. now apply elem_of_list_to_set.
Qed.

Lemma build_fields (repos : list Repo.t) (fl : EventFlow) :
  fl ∈ build repos ->
  publishers fl = pubs_of (event fl) (facts repos)
  /\ consumers fl = cons_of (event fl) (facts repos)
  /\ is_orphaned fl
     = (length (publishers fl) =? 0) || (length (consumers fl) =? 0).
Proof.
  intros [_ Hfl]%build_elem_of.
  destruct (build_index_get repos (event fl)) as [Hp Hc].
  assert (publishers fl = dd_get (build_index repos).1 (event fl)) as Hpf
    by (rewrite Hfl at 1; reflexivity).
  assert (consumers fl = dd_get (build_index repos).2 (event fl)) as Hcf
    by (rewrite Hfl at 1; reflexivity).
  split; [congruence|]. split; [congruence|].
  rewrite Hpf, Hcf. rewrite Hfl at 1. reflexivity.
Qed.

Lemma build_events_NoDup (repos : list Repo.t) : NoDup (event <$> build repos).
Proof. rewrite build_events. apply sorted_NoDup, NoDup_elements. Qed.

(** One entry per event name: the name decides the entry. *)
Lemma build_event_inj (repos : list Repo.t) (fl fl' : EventFlow) :
  fl ∈ build repos -> fl' ∈ build repos -> event fl = event fl' -> fl = fl'.
Proof.
  intros [_ ->]%build_elem_of [_ ->]%build_elem_of. simpl. now intros ->.
Qed.

Lemma length_zero_nil (l : list string) : (length l =? 0) = true <-> l = [].
Proof. destruct l; simpl; split; congruence. Qed.

Lemma build_permutation_events (repos repos' : list Repo.t) :
  facts repos ≡ₚ facts repos' -> event <$> build repos = event <$> build repos'.
Proof.
  intros Hp. rewrite !build_events, !build_index_events.
  apply sorted_same_elements; try apply NoDup_elements.
  intros e. rewrite !elem_of_elements, !elem_of_list_to_set.
  now rewrite (names_of_Permutation _ _ Hp).
Qed.

Lemma orphaned_elem_of (flows : list EventFlow) (fl : EventFlow) :
  fl ∈ orphaned flows <-> fl ∈ flows /\ is_orphaned fl = true.
Proof. unfold orphaned. rewrite list_elem_of_filter. tauto. Qed.

Lemma orphaned_sublist (flows : list EventFlow) : orphaned flows `sublist_of` flows.
Proof. apply sublist_filter. Qed.

(** A fact is one service of one repository. *)
Lemma facts_elem_of (repos : list Repo.t) (f : Fact) :
  f ∈ facts repos
  <-> exists repo service,
        repo ∈ repos /\ service ∈ Repo.services repo
        /\ f = {| fact_id := service_id (Repo.name repo) service;
                  published := Service.publishes service;
                  consumed := Service.consumes service |}.
Proof.
  unfold facts, facts_of_repo. rewrite list_elem_of_bind. split.
  - intros (repo & (service & -> & Hs)%list_elem_of_fmap & Hr). eauto 6.
  - intros (repo & service & Hr & Hs & ->). exists repo. split; [|exact Hr].
    apply list_elem_of_fmap. eauto.
Qed.

Lemma names_of_services (repos : list Repo.t) (e : string) :
  e ∈ names_of (facts repos)
  <-> exists repo service,
        repo ∈ repos /\ service ∈ Repo.services repo
        /\ (e ∈ Service.publishes service \/ e ∈ Service.consumes service).
Proof.
  rewrite names_of_elem_of. split.
  - intros (f & (repo & service & Hr & Hs & ->)%facts_elem_of & He). eauto 6.
  - intros (repo & service & Hr & Hs & He).
    eexists. split; [apply facts_elem_of; eauto 6|exact He].
Qed.

(** The flag depends on the facts only through what they offer, and a
    permutation offers the same number of ids. *)
Lemma flag_permutation (repos repos' : list Repo.t) (e : string) :
  facts repos ≡ₚ facts repos' ->
  is_orphaned (make_flow (build_index repos) e)
  = is_orphaned (make_flow (build_index repos') e).
Proof.
  intros Hp. unfold make_flow; simpl.
  destruct (build_index_get repos e) as [-> ->].
  destruct (build_index_get repos' e) as [-> ->].
  now rewrite (Permutation_length (pubs_of_Permutation e _ _ Hp)),
    (Permutation_length (cons_of_Permutation e _ _ Hp)).
Qed.

Lemma orphaned_events_ext (ix ix' : Index) (names : list string) :
  (forall e, is_orphaned (make_flow ix e) = is_orphaned (make_flow ix' e)) ->
  event <$> orphaned (make_flow ix <$> names)
  = event <$> orphaned (make_flow ix' <$> names).
Proof.
  intros Hflag. unfold orphaned.
  induction names as [|e names IH]; [reflexivity|].
  rewrite !fmap_cons, !filter_cons, <- Hflag.
  destruct (decide (is_orphaned (make_flow ix e) = true)); [|exact IH].
  rewrite !fmap_cons. f_equal. exact IH.
Qed.

Lemma build_permutation (repos repos' : list Repo.t) :
  facts repos ≡ₚ facts repos' ->
  build repos' = make_flow (build_index repos') <$> (event <$> build repos).
Proof.
  intros Hp. rewrite (build_permutation_events _ _ Hp), build_events.
  apply build_unfold.
Qed.

(** Whatever order the set hands its elements out in, the call appends the
    same flows. *)
Lemma new_flows_from_any (repos : list Repo.t) (iteration : list string) :
  NoDup iteration ->
  (forall e, e ∈ iteration <-> e ∈ all_events (build_index repos)) ->
  new_flows_from iteration (build_index repos) = build repos.
Proof.
  intros Hnd Hsame. rewrite build_unfold. unfold new_flows_from. f_equal.
  apply sorted_same_elements; [exact Hnd|apply NoDup_elements|].
  intros e. now rewrite Hsame, elem_of_elements.
Qed.

Lemma build_length (repos : list Repo.t) :
  length (build repos) = length (first_seen (names_of (facts repos))).
Proof.
  rewrite build_unfold, length_fmap. apply Permutation_length.
  rewrite sorted_Permutation, build_index_events.
  apply NoDup_Permutation;
    [apply NoDup_elements|apply first_seen_NoDup|].
  intros e. now rewrite elem_of_elements, elem_of_list_to_set, first_seen_elem_of.
Qed.

(** A second call on the same mapper appends the flows once more. *)
Lemma map_flows_again (repos : list Repo.t) :
  (map_flows (map_flows (init repos)).1).2 = build repos ++ build repos.
Proof. reflexivity. Qed.

End ComprehensiveFacts.

(** ** The tracking block of [extract_with_consumers.py] *)

Module WithConsumersFacts.
Import WithConsumers.

(** *** The insertion-ordered dict *)

Lemma getitem_setitem (d : list (string * Flow)) (k k' : string) (v : Flow) :
  getitem (setitem d k v) k' = if decide (k = k') then Some v else getitem d k'.
Proof.
  induction d as [|[k0 v0] d IH]; simpl.
  - destruct (decide (k = k')); reflexivity.
  - destruct (decide (k0 = k)) as [->|Hne]; simpl.
    + destruct (decide (k = k')); reflexivity.
    + rewrite IH. destruct (decide (k0 = k')) as [->|]; [|reflexivity].
      now rewrite decide_False by congruence.
Qed.

Lemma setitem_setitem (d : list (string * Flow)) (k : string) (v v' : Flow) :
  setitem (setitem d k v) k v' = setitem d k v'.
Proof.
  induction d as [|[k0 v0] d IH]; simpl.
  - now rewrite decide_True.
  - destruct (decide (k0 = k)) as [->|Hne]; simpl.
    + now rewrite decide_True.
    + rewrite decide_False by exact Hne. now rewrite IH.
Qed.

Lemma getitem_keys (d : list (string * Flow)) (k : string) :
  is_Some (getitem d k) <-> k ∈ keys d.
Proof.
  unfold keys. induction d as [|[k0 v0] d IH]; simpl.
  - rewrite elem_of_nil. split; [intros [? ?]; discriminate|tauto].
  - rewrite elem_of_cons. destruct (decide (k0 = k)) as [->|Hne].
    + split; eauto.
    + rewrite IH. split; [auto|]. intros [?|?]; [congruence|assumption].
Qed.

Lemma getitem_None_keys (d : list (string * Flow)) (k : string) :
  getitem d k = None <-> k ∉ keys d.
Proof. rewrite <- getitem_keys, eq_None_not_Some. reflexivity. Qed.

Lemma keys_setitem (d : list (string * Flow)) (k : string) (v : Flow) :
  keys (setitem d k v) = push (keys d) k.
Proof.
  unfold keys. induction d as [|[k0 v0] d IH]; cbn [setitem].
  - reflexivity.
  - destruct (decide (k0 = k)) as [->|Hne]; rewrite !fmap_cons; cbn [fst].
    + rewrite push_seen by left. reflexivity.
    + rewrite IH. unfold push.
      destruct (decide (k ∈ d.*1)) as [Hin|Hout].
      * rewrite decide_True by now right. reflexivity.
      * rewrite decide_False; [reflexivity|].
        intros [?|?]%elem_of_cons; congruence.
Qed.

Lemma contains_true (d : list (string * Flow)) (k : string) :
  contains d k = true <-> k ∈ keys d.
Proof.
  rewrite <- getitem_keys. unfold contains.
  destruct (getitem d k); split; eauto; try discriminate.
  intros [? ?]; discriminate.
Qed.

(** *** The loop bodies never raise *)

Lemma track_publisher_add (s : string) (d : list (string * Flow)) (ev : EventInfo) :
  track_publisher s d ev = Some (add Pub s d (name ev)).
Proof.
  unfold track_publisher, add, contains.
  destruct (getitem d (name ev)) as [fl|] eqn:Hget; cbn [negb].
  - rewrite Hget. cbn [mbind option_bind side_get].
    destruct (decide (s ∈ publishers fl)) as [Hin|Hout].
    + rewrite decide_False by auto. reflexivity.
    + rewrite decide_True by auto. reflexivity.
  - rewrite getitem_setitem, decide_True by reflexivity.
    cbn [mbind option_bind side_add empty_flow publishers consumers].
    rewrite decide_True by apply not_elem_of_nil.
    now rewrite setitem_setitem.
Qed.

Lemma track_consumer_add (s : string) (d : list (string * Flow)) (e : string) :
  track_consumer s d e = Some (add Con s d e).
Proof.
  unfold track_consumer, add, contains.
  destruct (getitem d e) as [fl|] eqn:Hget; cbn [negb].
  - rewrite Hget. cbn [mbind option_bind side_get].
    destruct (decide (s ∈ consumers fl)) as [Hin|Hout].
    + rewrite decide_False by auto. reflexivity.
    + rewrite decide_True by auto. reflexivity.
  - rewrite getitem_setitem, decide_True by reflexivity.
    cbn [mbind option_bind side_add empty_flow publishers consumers].
    rewrite decide_True by apply not_elem_of_nil.
    now rewrite setitem_setitem.
Qed.

Lemma for_each_total {S A : Type} (body : S -> A -> option S) (f : S -> A -> S)
    (xs : list A) :
  (forall s x, body s x = Some (f s x)) ->
  forall s, for_each body s xs = Some (foldl f s xs).
Proof.
  intros Hbody. induction xs as [|x xs IH]; intros s; simpl; [reflexivity|].
  rewrite Hbody. simpl. apply IH.
Qed.

Lemma track_service_step (d : list (string * Flow)) (scan : Scan) :
  track_service d scan = Some (step d scan).
Proof.
  unfold track_service, step, published_event_names.
  rewrite (for_each_total _ (fun d ev => add Pub (service_name scan) d (name ev)))
    by apply track_publisher_add.
  simpl.
  rewrite (for_each_total _ (add Con (service_name scan)))
    by apply track_consumer_add.
  now rewrite foldl_fmap.
Qed.

Lemma track_all_run (scans : list Scan) :
  track_all scans = Some (foldl step [] scans).
Proof. apply for_each_total, track_service_step. Qed.

(** *** One guarded append *)

Lemma side_get_add (sd sd' : Side) (s : string) (fl : Flow) :
  side_get sd' (side_add sd s fl)
  = if decide (sd = sd') then side_get sd' fl ++ [s] else side_get sd' fl.
Proof. destruct sd, sd'; reflexivity. Qed.

Lemma keys_add (sd : Side) (s : string) (d : list (string * Flow)) (k : string) :
  keys (add sd s d k) = push (keys d) k.
Proof.
  unfold add. destruct (getitem d k) as [fl|] eqn:Hget.
  - assert (k ∈ keys d) as Hk by (apply getitem_keys; eauto).
    destruct (decide (s ∈ side_get sd fl)).
    + now rewrite push_seen.
    + apply keys_setitem.
  - apply keys_setitem.
Qed.

Lemma view_add (sd sd' : Side) (s : string) (d : list (string * Flow))
    (k k' : string) :
  view (add sd s d k) k' sd'
  = if decide (k = k' /\ sd = sd') then push (view d k' sd') s else view d k' sd'.
Proof.
  unfold view, add.
  destruct (getitem d k) as [fl|] eqn:Hget.
  - destruct (decide (s ∈ side_get sd fl)) as [Hin|Hout].
    + destruct (decide (k = k' /\ sd = sd')) as [[<- <-]|]; [|reflexivity].
      rewrite Hget; simpl. now rewrite push_seen.
    + rewrite getitem_setitem.
      destruct (decide (k = k')) as [<-|Hk]; simpl.
      * rewrite Hget; simpl. rewrite side_get_add.
        destruct (decide (sd = sd')) as [<-|Hsd].
        -- rewrite decide_True by auto. now rewrite push_new.
        -- rewrite decide_False by tauto. reflexivity.
      * rewrite decide_False by tauto. reflexivity.
  - rewrite getitem_setitem.
    destruct (decide (k = k')) as [<-|Hk]; simpl.
    + rewrite Hget; simpl. rewrite side_get_add.
      destruct (decide (sd = sd')) as [<-|Hsd].
      * rewrite decide_True by auto. destruct sd; reflexivity.
      * rewrite decide_False by tauto. reflexivity.
    + rewrite decide_False by tauto. reflexivity.
Qed.

(** A service already listed is not listed again, and nothing else moves. *)
Lemma add_seen (sd : Side) (s : string) (d : list (string * Flow)) (k : string) :
  s ∈ view d k sd -> add sd s d k = d.
Proof.
  unfold view, add. destruct (getitem d k) as [fl|]; simpl.
  - intros Hin. now rewrite decide_True.
  - destruct sd; simpl; intros Hin; now apply elem_of_nil in Hin.
Qed.

(** *** One list of names *)

Lemma keys_add_all (sd : Side) (s : string) (names : list string) :
  forall d, keys (foldl (add sd s) d names) = foldl push (keys d) names.
Proof.
  induction names as [|n names IH]; intros d; simpl; [reflexivity|].
  now rewrite IH, keys_add.
Qed.

Lemma view_add_all (sd sd' : Side) (s e : string) (names : list string) :
  forall d,
    view (foldl (add sd s) d names) e sd'
    = if decide (sd = sd')
      then foldl push (view d e sd') (mentions e names s)
      else view d e sd'.
Proof.
  induction names as [|n names IH]; intros d; cbn [foldl].
  - destruct (decide (sd = sd')); reflexivity.
  - rewrite IH, view_add, mentions_cons.
    destruct (decide (sd = sd')) as [<-|Hsd].
    + destruct (decide (n = e)) as [->|Hne].
      * rewrite decide_True by auto. reflexivity.
      * rewrite decide_False by tauto. reflexivity.
    + rewrite decide_False by tauto. reflexivity.
Qed.

Lemma add_all_seen (sd : Side) (s : string) (names : list string) :
  forall d, (forall e, e ∈ names -> s ∈ view d e sd) -> foldl (add sd s) d names = d.
Proof.
  induction names as [|n names IH]; intros d Hall; simpl; [reflexivity|].
  rewrite add_seen by (apply Hall; left).
  apply IH. intros e He. apply Hall. now right.
Qed.

(** *** One service, and the whole run *)

Lemma keys_step (d : list (string * Flow)) (scan : Scan) :
  keys (step d scan)
  = foldl push (keys d) (published_event_names scan ++ consumed_event_names scan).
Proof. unfold step. now rewrite !keys_add_all, foldl_app. Qed.

Lemma view_step (d : list (string * Flow)) (scan : Scan) (e : string) (sd : Side) :
  view (step d scan) e sd
  = foldl push (view d e sd) (mentions e (side_names sd scan) (service_name scan)).
Proof.
  unfold step. rewrite !view_add_all. destruct sd; simpl; reflexivity.
Qed.

Lemma keys_run (scans : list Scan) :
  forall d, keys (foldl step d scans) = foldl push (keys d) (names_of scans).
Proof.
  unfold names_of.
  induction scans as [|scan scans IH]; intros d; [reflexivity|].
  cbn [foldl]. now rewrite bind_cons, foldl_app, IH, keys_step.
Qed.

Lemma view_run (scans : list Scan) (e : string) (sd : Side) :
  forall d,
    view (foldl step d scans) e sd = foldl push (view d e sd) (offered sd e scans).
Proof.
  unfold offered.
  induction scans as [|scan scans IH]; intros d; [reflexivity|].
  cbn [foldl]. now rewrite bind_cons, foldl_app, IH, view_step.
Qed.

Lemma step_covers (d : list (string * Flow)) (scan : Scan) (sd : Side) (e : string) :
  e ∈ side_names sd scan -> service_name scan ∈ view (step d scan) e sd.
Proof.
  intros He. rewrite view_step, foldl_push_elem_of. right.
  now apply mentions_elem_of.
Qed.

(** Processing a service that was just processed changes nothing. *)
Lemma step_step (d : list (string * Flow)) (scan : Scan) :
  step (step d scan) scan = step d scan.
Proof.
  unfold step at 1.
  rewrite (add_all_seen Pub).
  - apply (add_all_seen Con). intros e He. now apply (step_covers d scan Con).
  - intros e He. now apply (step_covers d scan Pub).
Qed.

Lemma offered_elem_of (sd : Side) (e s : string) (scans : list Scan) :
  s ∈ offered sd e scans
  <-> exists scan, scan ∈ scans /\ service_name scan = s /\ e ∈ side_names sd scan.
Proof.
  unfold offered. rewrite list_elem_of_bind. split.
  - intros (scan & Hs & Hscan). apply mentions_elem_of in Hs as [-> He]. eauto.
  - intros (scan & Hscan & <- & He). exists scan. split; [|exact Hscan].
    now apply mentions_elem_of.
Qed.

Lemma scan_names_elem_of (e : string) (scans : list Scan) :
  e ∈ names_of scans
  <-> exists scan, scan ∈ scans
        /\ (e ∈ published_event_names scan \/ e ∈ consumed_event_names scan).
Proof.
  unfold names_of. rewrite list_elem_of_bind. split.
  - intros (scan & He & Hscan). apply elem_of_app in He. eauto.
  - intros (scan & Hscan & He). exists scan. rewrite elem_of_app. auto.
Qed.

Lemma run_keys (scans : list Scan) :
  keys (foldl step [] scans) = first_seen (names_of scans).
Proof. rewrite keys_run. reflexivity. Qed.

Lemma run_view (scans : list Scan) (e : string) (sd : Side) :
  view (foldl step [] scans) e sd = first_seen (offered sd e scans).
Proof. rewrite view_run. destruct sd; reflexivity. Qed.

Lemma getitem_view (d : list (string * Flow)) (k : string) (fl : Flow) :
  getitem d k = Some fl ->
  publishers fl = view d k Pub /\ consumers fl = view d k Con.
Proof. unfold view. now intros ->. Qed.

Lemma run_keys_NoDup (scans : list Scan) : NoDup (keys (foldl step [] scans)).
Proof. rewrite run_keys. apply first_seen_NoDup. Qed.

(** With distinct keys, every entry is the one [d[k]] finds. *)
Lemma getitem_entry (d : list (string * Flow)) (k : string) (fl : Flow) :
  NoDup (keys d) -> (k, fl) ∈ d -> getitem d k = Some fl.
Proof.
  unfold keys. induction d as [|[k0 v0] d IH]; intros Hnd Hin.
  - now apply elem_of_nil in Hin.
  - rewrite fmap_cons in Hnd. apply NoDup_cons in Hnd as [Hk0 Hnd].
    cbn [getitem]. apply elem_of_cons in Hin as [Heq|Hin].
    + injection Heq as -> ->. now rewrite decide_True.
    + rewrite decide_False; [auto|].
      intros ->. apply Hk0. apply list_elem_of_fmap. exists (k, fl). auto.
Qed.

Lemma getitem_elem_of (d : list (string * Flow)) (k : string) (fl : Flow) :
  getitem d k = Some fl -> (k, fl) ∈ d.
Proof.
  induction d as [|[k0 v0] d IH]; cbn [getitem]; [discriminate|].
  destruct (decide (k0 = k)) as [->|Hne].
  - intros [= ->]. left.
  - intros Hget. right. auto.
Qed.

End WithConsumersFacts.

(** * The specification's claims *)

Section Claims.
Import Comprehensive ComprehensiveFacts WithConsumersFacts.

(** ** The example scenarios, run on the code *)

Example scenario_published_and_consumed :
  build [Repo.mk "r" [Service.mk "A" ["OrderCreatedEvent"] [];
                      Service.mk "B" [] ["OrderCreatedEvent"]]]
  = [{| event := "OrderCreatedEvent"; publishers := ["r/A"];
        consumers := ["r/B"]; is_orphaned := false |}].
Proof. vm_compute. reflexivity. Qed.

Example scenario_no_consumer :
  build [Repo.mk "r" [Service.mk "A" ["FooEvent"] []]]
  = [{| event := "FooEvent"; publishers := ["r/A"];
        consumers := []; is_orphaned := true |}].
Proof. vm_compute. reflexivity. Qed.

Example scenario_no_publisher :
  build [Repo.mk "r" [Service.mk "A" [] ["BarEvent"]]]
  = [{| event := "BarEvent"; publishers := [];
        consumers := ["r/A"]; is_orphaned := true |}].
Proof. vm_compute. reflexivity. Qed.

Example scenario_duplicate_fact_guarded :
  WithConsumers.track_all
    [WithConsumers.mkScan "A" [WithConsumers.mkEvent "X"] [];
     WithConsumers.mkScan "A" [WithConsumers.mkEvent "X"] []]
  = Some [("X", {| WithConsumers.publishers := ["A"];
                   WithConsumers.consumers := [] |})].
Proof. vm_compute. reflexivity. Qed.

Example scenario_one_publisher_two_consumers :
  build [Repo.mk "r" [Service.mk "p" ["E"] []; Service.mk "c2" [] ["E"];
                      Service.mk "c1" [] ["E"]]]
  = [{| event := "E"; publishers := ["r/p"];
        consumers := ["r/c2"; "r/c1"]; is_orphaned := false |}].
Proof. vm_compute. reflexivity. Qed.

Example scenario_sorted_output :
  event <$> build [Repo.mk "r" [Service.mk "B" ["Zeta"; "Alpha"] ["Beta"];
                                Service.mk "A" ["Alpha"] []]]
  = ["Alpha"; "Beta"; "Zeta"].
Proof. vm_compute. reflexivity. Qed.

(** ** C1: idempotence *)

(** C1 as stated fails on [map_flows]: the same fact given once leaves the
    service id once in the publishers list, given twice leaves it twice. *)
Lemma duplicate_fact_listed_twice :
  publishers <$> build [Repo.mk "r" [Service.mk "A" ["X"] []]]
  = [["r/A"]]
  /\ publishers
       <$> build [Repo.mk "r" [Service.mk "A" ["X"] []; Service.mk "A" ["X"] []]]
     = [["r/A"; "r/A"]].
Proof. split; vm_compute; reflexivity. Qed.

(** C1, amended: in the guarded merge of [extract_with_consumers.py],
    processing a service a second time, from any state of [event_flows],
    raises nothing and leaves the dict as the first pass left it. In
    [map_flows], which has no membership test, a second pass over a fact
    appends its service id once more per listing; its lists are free of
    duplicates when no service id repeats in the input and every service's
    own lists are free of duplicates. *)
Theorem idempotent_where_guarded :
  (forall (d : list (string * WithConsumers.Flow)) (scan : WithConsumers.Scan),
      exists d1,
        WithConsumers.track_service d scan = Some d1
        /\ WithConsumers.track_service d1 scan = Some d1)
  /\ (forall (ix : Index) (f : Fact) (e : string),
        dd_get (index_fact (index_fact ix f) f).1 e
        = dd_get (index_fact ix f).1 e ++ mentions e (published f) (fact_id f)
        /\ dd_get (index_fact (index_fact ix f) f).2 e
           = dd_get (index_fact ix f).2 e ++ mentions e (consumed f) (fact_id f))
  /\ (forall (repos : list Repo.t) (fl : EventFlow),
        NoDup (fact_id <$> facts repos) ->
        Forall (fun f => NoDup (published f) /\ NoDup (consumed f)) (facts repos) ->
        fl ∈ build repos ->
        NoDup (publishers fl) /\ NoDup (consumers fl)).
Proof.
  split; [|split].
  - intros d scan. exists (WithConsumers.step d scan).
    rewrite !track_service_step, step_step. auto.
  - intros ix f e. unfold index_fact; simpl. now rewrite !dd_get_foldl.
  - intros repos fl Hids Hsets Hfl.
    destruct (build_fields repos fl Hfl) as (-> & -> & _).
    rewrite pubs_of_filter, cons_of_filter
      by (eapply Forall_impl; [exact Hsets|]; simpl; tauto).
    split; now apply filter_ids_NoDup.
Qed.

Lemma idempotent_where_guarded_witness :
  (exists d1,
      WithConsumers.track_service []
        (WithConsumers.mkScan "A" [WithConsumers.mkEvent "X"] ["Y"]) = Some d1
      /\ WithConsumers.track_service d1
           (WithConsumers.mkScan "A" [WithConsumers.mkEvent "X"] ["Y"]) = Some d1)
  /\ NoDup ["r/A"; "r/B"] /\ NoDup ["r/B"].
Proof.
  split.
  - apply (proj1 idempotent_where_guarded).
  - apply (proj2 (proj2 idempotent_where_guarded)
             [Repo.mk "r" [Service.mk "A" ["X"] []; Service.mk "B" ["X"] ["X"]]]
             {| event := "X"; publishers := ["r/A"; "r/B"];
                consumers := ["r/B"]; is_orphaned := false |}).
    + vm_compute. repeat constructor; set_solver.
    + vm_compute. repeat constructor; set_solver.
    + vm_compute. left.
Defined.

(** ** C2: the orphan flag *)

(** C2: an entry of the built list is flagged orphaned exactly when its
    publishers list or its consumers list is empty; with at least one of
    each it is not flagged, however many there are; and after any
    permutation of the facts the event is listed again with the same flag. *)
Theorem orphan_flag_correct (repos repos' : list Repo.t) (fl : EventFlow) :
  fl ∈ build repos ->
  (is_orphaned fl = true <-> publishers fl = [] \/ consumers fl = [])
  /\ (publishers fl <> [] -> consumers fl <> [] -> is_orphaned fl = false)
  /\ (facts repos ≡ₚ facts repos' ->
      exists fl', fl' ∈ build repos' /\ event fl' = event fl
                  /\ is_orphaned fl' = is_orphaned fl).
Proof.
  intros Hfl. pose proof (build_fields repos fl Hfl) as (_ & _ & Hflag).
  assert (is_orphaned fl = true <-> publishers fl = [] \/ consumers fl = [])
    as Hiff by (rewrite Hflag, orb_true_iff, !length_zero_nil; reflexivity).
  split; [exact Hiff|]. split.
  - intros Hp Hc. destruct (is_orphaned fl); [|reflexivity].
    destruct (proj1 Hiff eq_refl); contradiction.
  - intros Hperm. apply build_elem_of in Hfl as [Hname Hmk].
    exists (make_flow (build_index repos') (event fl)). split; [|split].
    + apply build_elem_of. simpl. split; [|reflexivity].
      now rewrite <- (names_of_Permutation _ _ Hperm).
    + reflexivity.
    + rewrite Hmk at 2. symmetry. now apply flag_permutation.
Qed.

Lemma orphan_flag_correct_witness :
  (false = true <-> ["r/A"] = [] \/ ["r/B"] = [])
  /\ (["r/A"] <> [] -> ["r/B"] <> [] -> false = false)
  /\ (facts [Repo.mk "r" [Service.mk "A" ["OrderCreatedEvent"] [];
                          Service.mk "B" [] ["OrderCreatedEvent"]]]
      ≡ₚ facts [Repo.mk "r" [Service.mk "B" [] ["OrderCreatedEvent"];
                             Service.mk "A" ["OrderCreatedEvent"] []]] ->
      exists fl',
        fl' ∈ build [Repo.mk "r" [Service.mk "B" [] ["OrderCreatedEvent"];
                                  Service.mk "A" ["OrderCreatedEvent"] []]]
        /\ event fl' = "OrderCreatedEvent" /\ is_orphaned fl' = false).
Proof.
  apply (orphan_flag_correct
           [Repo.mk "r" [Service.mk "A" ["OrderCreatedEvent"] [];
                         Service.mk "B" [] ["OrderCreatedEvent"]]]
           [Repo.mk "r" [Service.mk "B" [] ["OrderCreatedEvent"];
                         Service.mk "A" ["OrderCreatedEvent"] []]]
           {| event := "OrderCreatedEvent"; publishers := ["r/A"];
              consumers := ["r/B"]; is_orphaned := false |}).
  vm_compute. left.
Defined.

(** ** C3: union completeness *)

(** C3: the event names of the built list are exactly the names some
    service of some repository lists under [publishes] or [consumes], each
    once; and the keys of [event_flows] in [extract_with_consumers.py] are
    exactly the names some scanned service publishes or consumes, each once. *)
Theorem union_completeness :
  (forall (repos : list Repo.t) (e : string),
      e ∈ event <$> build repos
      <-> exists repo service,
            repo ∈ repos /\ service ∈ Repo.services repo
            /\ (e ∈ Service.publishes service \/ e ∈ Service.consumes service))
  /\ (forall repos : list Repo.t, NoDup (event <$> build repos))
  /\ (forall scans : list WithConsumers.Scan,
        exists d,
          WithConsumers.track_all scans = Some d
          /\ NoDup (WithConsumers.keys d)
          /\ forall e,
               e ∈ WithConsumers.keys d
               <-> exists scan,
                     scan ∈ scans
                     /\ (e ∈ WithConsumers.published_event_names scan
                         \/ e ∈ WithConsumers.consumed_event_names scan)).
Proof.
  split; [|split].
  - intros repos e. rewrite <- names_of_services, build_events.
    now rewrite sorted_elem_of, elem_of_elements, build_index_events,
      elem_of_list_to_set.
  - apply build_events_NoDup.
  - intros scans. exists (foldl WithConsumers.step [] scans).
    split; [apply track_all_run|]. split; [apply run_keys_NoDup|].
    intros e. now rewrite run_keys, first_seen_elem_of, scan_names_elem_of.
Qed.

(** ** C4: order of the returned mapping *)

(** C4 as stated fails on [extract_with_consumers.py]: its dict keeps the
    keys in insertion order, here "Zeta" before "Alpha". *)
Lemma insertion_order_not_sorted :
  WithConsumers.keys
    <$> WithConsumers.track_all
          [WithConsumers.mkScan "A" [WithConsumers.mkEvent "Zeta"] ["Alpha"]]
  = Some ["Zeta"; "Alpha"]
  /\ bool_decide (Sorted PyStr.le ["Zeta"; "Alpha"]) = false.
Proof. split; vm_compute; reflexivity. Qed.

(** C4, amended: [map_flows] returns its flows in strictly ascending order
    of event name, whatever the input; the [event_flows] dict of
    [extract_with_consumers.py] is not sorted, it iterates in the order in
    which the event names were first met. *)
Theorem flows_sorted_by_event :
  (forall repos : list Repo.t, StronglySorted PyStr.lt (event <$> build repos))
  /\ (forall scans : list WithConsumers.Scan,
        WithConsumers.keys <$> WithConsumers.track_all scans
        = Some (first_seen (WithConsumers.names_of scans))).
Proof.
  split.
  - intros repos. rewrite build_events. apply sorted_strict, NoDup_elements.
  - intros scans. rewrite track_all_run. simpl. now rewrite run_keys.
Qed.

(** ** C5: first-seen order of publishers and consumers *)

(** C5 as stated fails on [map_flows]: a service id that comes back later
    in the input is listed again, so the list is not the distinct ids. *)
Lemma repeated_service_listed_again :
  publishers
    <$> build [Repo.mk "r" [Service.mk "A" ["X"] []; Service.mk "B" ["X"] [];
                            Service.mk "A" ["X"] []]]
  = [["r/A"; "r/B"; "r/A"]]
  /\ first_seen ["r/A"; "r/B"; "r/A"] = ["r/A"; "r/B"].
Proof. split; vm_compute; reflexivity. Qed.

(** C5, amended: in [extract_with_consumers.py] the publishers and consumers
    lists of an event hold the distinct service names in first-seen order
    over the input. In [map_flows] the lists hold the service ids in
    processing order, one per listing of the event, not sorted; they are
    the distinct ids in first-seen order when no service id repeats in the
    input and every service's own lists are free of duplicates. *)
Theorem first_seen_order :
  (forall (scans : list WithConsumers.Scan) (d : list (string * WithConsumers.Flow))
          (e : string) (fl : WithConsumers.Flow),
      WithConsumers.track_all scans = Some d ->
      (e, fl) ∈ d ->
      WithConsumers.publishers fl
      = first_seen (WithConsumers.offered WithConsumers.Pub e scans)
      /\ WithConsumers.consumers fl
         = first_seen (WithConsumers.offered WithConsumers.Con e scans))
  /\ (forall (repos : list Repo.t) (fl : EventFlow),
        fl ∈ build repos ->
        publishers fl = pubs_of (event fl) (facts repos)
        /\ consumers fl = cons_of (event fl) (facts repos)
        /\ (NoDup (fact_id <$> facts repos) ->
            Forall (fun f => NoDup (published f) /\ NoDup (consumed f))
                   (facts repos) ->
            publishers fl = first_seen (pubs_of (event fl) (facts repos))
            /\ publishers fl
               = fact_id <$> filter (fun f => event fl ∈ published f) (facts repos)
            /\ consumers fl = first_seen (cons_of (event fl) (facts repos))
            /\ consumers fl
               = fact_id <$> filter (fun f => event fl ∈ consumed f) (facts repos)))
  /\ publishers
       <$> build [Repo.mk "r" [Service.mk "B" ["X"] []; Service.mk "A" ["X"] []]]
     = [["r/B"; "r/A"]].
Proof.
  split; [|split].
  - intros scans d e fl Hrun Hin.
    rewrite track_all_run in Hrun. injection Hrun as <-.
    apply getitem_entry in Hin; [|apply run_keys_NoDup].
    apply getitem_view in Hin as [-> ->]. now rewrite !run_view.
  - intros repos fl Hfl.
    destruct (build_fields repos fl Hfl) as (Hp & Hc & _).
    split; [exact Hp|]. split; [exact Hc|].
    intros Hids Hsets. rewrite Hp, Hc.
    rewrite pubs_of_filter, cons_of_filter
      by (eapply Forall_impl; [exact Hsets|]; simpl; tauto).
    rewrite !first_seen_id by now apply filter_ids_NoDup.
    auto.
  - vm_compute. reflexivity.
Qed.

Lemma first_seen_order_witness :
  (["A"] = first_seen (WithConsumers.offered WithConsumers.Pub "X"
                         [WithConsumers.mkScan "A" [WithConsumers.mkEvent "X"] [];
                          WithConsumers.mkScan "B" [] ["X"]])
   /\ ["B"] = first_seen (WithConsumers.offered WithConsumers.Con "X"
                            [WithConsumers.mkScan "A" [WithConsumers.mkEvent "X"] [];
                             WithConsumers.mkScan "B" [] ["X"]]))
  /\ ["r/B"; "r/A"]
     = first_seen (pubs_of "X" (facts [Repo.mk "r" [Service.mk "B" ["X"] [];
                                                    Service.mk "A" ["X"] []]])).
Proof.
  split.
  - apply (proj1 first_seen_order
             [WithConsumers.mkScan "A" [WithConsumers.mkEvent "X"] [];
              WithConsumers.mkScan "B" [] ["X"]]
             [("X", {| WithConsumers.publishers := ["A"];
                       WithConsumers.consumers := ["B"] |})]
             "X"
             {| WithConsumers.publishers := ["A"];
                WithConsumers.consumers := ["B"] |}).
    + vm_compute. reflexivity.
    + left.
  - apply (proj2 (proj2 (proj1 (proj2 first_seen_order)
             [Repo.mk "r" [Service.mk "B" ["X"] []; Service.mk "A" ["X"] []]]
             {| event := "X"; publishers := ["r/B"; "r/A"];
                consumers := []; is_orphaned := true |}
             ltac:(vm_compute; left)))).
    + vm_compute. repeat constructor; set_solver.
    + vm_compute. repeat constructor; set_solver.
Defined.

(** ** C6: order-independence of membership *)

(** C6: two inputs whose fact sequences are permutations of each other
    build the same event names in the same order and flag the same events
    as orphaned; for every event the two publishers lists hold the same
    service ids (as often), and so do the two consumers lists; only the
    order inside those lists may differ. *)
Theorem order_independent_membership (repos repos' : list Repo.t) :
  facts repos ≡ₚ facts repos' ->
  event <$> build repos = event <$> build repos'
  /\ event <$> orphaned (build repos) = event <$> orphaned (build repos')
  /\ forall fl fl' : EventFlow,
       fl ∈ build repos -> fl' ∈ build repos' -> event fl = event fl' ->
       is_orphaned fl = is_orphaned fl'
       /\ publishers fl ≡ₚ publishers fl'
       /\ consumers fl ≡ₚ consumers fl'
       /\ (forall s, s ∈ publishers fl <-> s ∈ publishers fl')
       /\ (forall s, s ∈ consumers fl <-> s ∈ consumers fl').
Proof.
  intros Hperm. split; [now apply build_permutation_events|]. split.
  - rewrite (build_permutation _ _ Hperm). rewrite (build_unfold repos) at 1.
    rewrite build_events. apply orphaned_events_ext.
    intros e. now apply flag_permutation.
  - intros fl fl' Hfl Hfl' Hev.
    destruct (build_fields repos fl Hfl) as (Hp & Hc & _).
    destruct (build_fields repos' fl' Hfl') as (Hp' & Hc' & _).
    apply build_elem_of in Hfl as [_ Hmk], Hfl' as [_ Hmk'].
    assert (publishers fl ≡ₚ publishers fl') as Hpp
      by (rewrite Hp, Hp', Hev; now apply pubs_of_Permutation).
    assert (consumers fl ≡ₚ consumers fl') as Hcc
      by (rewrite Hc, Hc', Hev; now apply cons_of_Permutation).
    split; [|split; [exact Hpp|split; [exact Hcc|split]]].
    + rewrite Hmk, Hmk', Hev. now apply flag_permutation.
    + intros s. now rewrite Hpp.
    + intros s. now rewrite Hcc.
Qed.

Lemma order_independent_membership_witness :
  event <$> build [Repo.mk "r" [Service.mk "A" ["X"] ["Y"]; Service.mk "B" ["X"] []]]
  = event <$> build [Repo.mk "r" [Service.mk "B" ["X"] []; Service.mk "A" ["X"] ["Y"]]]
  /\ event <$> orphaned (build [Repo.mk "r" [Service.mk "A" ["X"] ["Y"];
                                             Service.mk "B" ["X"] []]])
     = event <$> orphaned (build [Repo.mk "r" [Service.mk "B" ["X"] [];
                                               Service.mk "A" ["X"] ["Y"]]])
  /\ forall fl fl' : EventFlow,
       fl ∈ build [Repo.mk "r" [Service.mk "A" ["X"] ["Y"]; Service.mk "B" ["X"] []]] ->
       fl' ∈ build [Repo.mk "r" [Service.mk "B" ["X"] []; Service.mk "A" ["X"] ["Y"]]] ->
       event fl = event fl' ->
       is_orphaned fl = is_orphaned fl'
       /\ publishers fl ≡ₚ publishers fl'
       /\ consumers fl ≡ₚ consumers fl'
       /\ (forall s, s ∈ publishers fl <-> s ∈ publishers fl')
       /\ (forall s, s ∈ consumers fl <-> s ∈ consumers fl').
Proof.
  apply (order_independent_membership
           [Repo.mk "r" [Service.mk "A" ["X"] ["Y"]; Service.mk "B" ["X"] []]]
           [Repo.mk "r" [Service.mk "B" ["X"] []; Service.mk "A" ["X"] ["Y"]]]).
  vm_compute. apply perm_swap.
Defined.

(** ** C7: the summary *)

(** C7: for any list of flows, [total_events] is its length and
    [orphaned_events] is the length of the sub-list of the entries whose
    stored [is_orphaned] is true, which keeps the order of the list. *)
Theorem summary_counts (all_repositories : list Repo.t) (flows : list EventFlow) :
  total_events (summary all_repositories flows) = length flows
  /\ orphaned_events (summary all_repositories flows) = length (orphaned flows)
  /\ (forall fl, fl ∈ orphaned flows <-> fl ∈ flows /\ is_orphaned fl = true)
  /\ orphaned flows `sublist_of` flows
  /\ orphaned_events (summary all_repositories flows)
     <= total_events (summary all_repositories flows).
Proof.
  split; [reflexivity|]. split; [reflexivity|].
  split; [apply orphaned_elem_of|]. split; [apply orphaned_sublist|].
  simpl. apply length_filter.
Qed.

(** ** C8: totality and the empty input *)

(** C8: the merge is defined on every input and returns one flow per
    distinct listed event name; the tracking block of
    [extract_with_consumers.py] never raises; on the empty input the built
    list is empty and the summary counts are zero. *)
Theorem total_and_empty :
  build [] = []
  /\ summary [] (build [])
     = {| total_repositories := 0; total_services := 0;
          total_events := 0; orphaned_events := 0 |}
  /\ orphaned (build []) = []
  /\ (forall repos : list Repo.t,
        length (build repos) = length (first_seen (names_of (facts repos))))
  /\ (forall scans : list WithConsumers.Scan,
        is_Some (WithConsumers.track_all scans))
  /\ WithConsumers.track_all [] = Some [].
Proof.
  split; [vm_compute; reflexivity|]. split; [vm_compute; reflexivity|].
  split; [vm_compute; reflexivity|]. split; [apply build_length|].
  split; [|reflexivity].
  intros scans. rewrite track_all_run. eauto.
Qed.

(** ** C9: determinism *)

(** C9: the flows a run returns do not depend on the order in which the
    set of event names is iterated before sorting: every duplicate-free
    enumeration of that set yields the list [build] returns, with the same
    events, lists and flags, so any two runs on one input agree. *)
Theorem build_deterministic (repos : list Repo.t) (iteration iteration' : list string) :
  NoDup iteration ->
  (forall e, e ∈ iteration <-> e ∈ all_events (build_index repos)) ->
  NoDup iteration' ->
  (forall e, e ∈ iteration' <-> e ∈ all_events (build_index repos)) ->
  new_flows_from iteration (build_index repos)
  = new_flows_from iteration' (build_index repos)
  /\ new_flows_from iteration (build_index repos) = build repos.
Proof.
  intros Hnd Hsame Hnd' Hsame'.
  now rewrite !new_flows_from_any.
Qed.

Lemma build_deterministic_witness :
  new_flows_from ["Y"; "X"]
    (build_index [Repo.mk "r" [Service.mk "A" ["X"] ["Y"]]])
  = new_flows_from ["X"; "Y"]
      (build_index [Repo.mk "r" [Service.mk "A" ["X"] ["Y"]]])
  /\ new_flows_from ["Y"; "X"]
       (build_index [Repo.mk "r" [Service.mk "A" ["X"] ["Y"]]])
     = build [Repo.mk "r" [Service.mk "A" ["X"] ["Y"]]].
Proof.
  apply (build_deterministic
           [Repo.mk "r" [Service.mk "A" ["X"] ["Y"]]] ["Y"; "X"] ["X"; "Y"]).
  - repeat constructor; set_solver.
  - intros e. rewrite build_index_events. vm_compute names_of. set_solver.
  - repeat constructor; set_solver.
  - intros e. rewrite build_index_events. vm_compute names_of. set_solver.
Defined.

(** ** C10: no entry without a publisher or a consumer *)

(** C10: every flow [map_flows] returns, and every entry of the
    [event_flows] dict of [extract_with_consumers.py], has a non-empty
    publishers list or a non-empty consumers list. *)
Theorem no_empty_entry :
  (forall (repos : list Repo.t) (fl : EventFlow),
      fl ∈ build repos -> publishers fl <> [] \/ consumers fl <> [])
  /\ (forall (scans : list WithConsumers.Scan)
             (d : list (string * WithConsumers.Flow))
             (e : string) (fl : WithConsumers.Flow),
        WithConsumers.track_all scans = Some d ->
        (e, fl) ∈ d ->
        WithConsumers.publishers fl <> [] \/ WithConsumers.consumers fl <> []).
Proof.
  split.
  - intros repos fl Hfl.
    destruct (build_fields repos fl Hfl) as (-> & -> & _).
    apply names_of_offered. now apply build_elem_of in Hfl as [Hname _].
  - intros scans d e fl Hrun Hin.
    rewrite track_all_run in Hrun. injection Hrun as <-.
    assert (e ∈ WithConsumers.keys (foldl WithConsumers.step [] scans)) as Hkey
      by (apply list_elem_of_fmap; exists (e, fl); auto).
    apply getitem_entry in Hin; [|apply run_keys_NoDup].
    apply getitem_view in Hin as [-> ->]. rewrite !run_view.
    rewrite run_keys, first_seen_elem_of in Hkey.
    apply scan_names_elem_of in Hkey as (scan & Hscan & [He|He]); [left|right];
      rewrite first_seen_nil_iff; apply nonempty_elem;
      exists (WithConsumers.service_name scan); apply offered_elem_of; eauto.
Qed.

Lemma no_empty_entry_witness :
  (["r/A"] <> [] \/ @nil string <> [])
  /\ (["A"] <> [] \/ @nil string <> []).
Proof.
  split.
  - apply (proj1 no_empty_entry
             [Repo.mk "r" [Service.mk "A" ["FooEvent"] []]]
             {| event := "FooEvent"; publishers := ["r/A"];
                consumers := []; is_orphaned := true |}).
    vm_compute. left.
  - apply (proj2 no_empty_entry
             [WithConsumers.mkScan "A" [WithConsumers.mkEvent "FooEvent"] []]
             [("FooEvent", {| WithConsumers.publishers := ["A"];
                              WithConsumers.consumers := [] |})]
             "FooEvent"
             {| WithConsumers.publishers := ["A"];
                WithConsumers.consumers := [] |}).
    + vm_compute. reflexivity.
    + left.
Defined.

End Claims.

(** * Further properties of the scripts *)

(** ** The [str] methods *)

Module StrFacts.
Import Str.

#[local] Arguments String.append !_ _ / : simpl nomatch.

Lemma str_app_nil_r (s : string) : s +:+ "" = s.
Proof. induction s as [|c s IH]; [reflexivity|]. cbn. now rewrite IH. Qed.

Lemma str_app_assoc (s t u : string) : (s +:+ t) +:+ u = s +:+ (t +:+ u).
Proof. induction s as [|c s IH]; [reflexivity|]. cbn. now rewrite IH. Qed.

Lemma str_length_app (s t : string) :
  String.length (s +:+ t) = String.length s + String.length t.
Proof. induction s as [|c s IH]; [reflexivity|]. cbn. now rewrite IH. Qed.

Lemma prefix_app (p s : string) :
  String.prefix p s = true <-> exists t, s = p +:+ t.
Proof.
  revert s. induction p as [|a p IH]; intros s.
  - split; [intros _; now exists s|intros _; now destruct s].
  - destruct s as [|b s]; cbn.
    + split; [discriminate|]. intros [t Ht]. discriminate.
    + destruct (ascii_dec a b) as [->|Hne].
      * rewrite IH. split; intros [t Ht]; exists t.
        -- cbn. now rewrite Ht.
        -- cbn in Ht. now injection Ht.
      * split; [discriminate|]. intros [t Ht]. cbn in Ht. congruence.
Qed.

Lemma prefix_refl (s : string) : String.prefix s s = true.
Proof. apply prefix_app. exists "". now rewrite str_app_nil_r. Qed.

(** [endswith] is "is a suffix". *)
Lemma endswith_app (s suf : string) :
  endswith s suf = true <-> exists a, s = a +:+ suf.
Proof.
  induction s as [|c s IH]; cbn [endswith]; rewrite orb_true_iff, String.eqb_eq.
  - split.
    + intros [<-|?]; [|discriminate]. now exists "".
    + intros [[|? ?] Ha]; [left|]; cbn in Ha; [auto|discriminate].
  - rewrite IH. split.
    + intros [<-|[a ->]]; [now exists ""|]. now exists (String c a).
    + intros [[|c' a] Ha]; cbn in Ha; [now left|].
      injection Ha as -> ->. right. eauto.
Qed.

(** [occurs] is "is a contiguous part". *)
Lemma occurs_app (sub s : string) :
  occurs sub s = true <-> exists a b, s = a +:+ sub +:+ b.
Proof.
  induction s as [|c s IH]; cbn [occurs]; rewrite orb_true_iff, prefix_app.
  - split.
    + intros [[t Ht]|?]; [|discriminate]. now exists "", t.
    + intros ([|? ?] & b & Hab); [|discriminate]. left. eauto.
  - rewrite IH. split.
    + intros [[t Ht]|(a & b & ->)]; [now exists "", t|].
      now exists (String c a), b.
    + intros ([|c' a] & b & Hab); cbn in Hab; [left; eauto|].
      injection Hab as -> ->. right. eauto.
Qed.


Lemma occurs_app_l (sub a b : string) :
  occurs sub a = true -> occurs sub (a +:+ b) = true.
Proof.
  rewrite !occurs_app. intros (x & y & ->). exists x, (y +:+ b).
  now rewrite !str_app_assoc.
Qed.

Lemma occurs_app_r (sub a b : string) :
  occurs sub b = true -> occurs sub (a +:+ b) = true.
Proof.
  rewrite !occurs_app. intros (x & y & ->). exists (a +:+ x), y.
  now rewrite !str_app_assoc.
Qed.

Lemma has_char_app (c : ascii) (s t : string) :
  has_char c (s +:+ t) = has_char c s || has_char c t.
Proof.
  induction s as [|c' s IH]; [reflexivity|]. cbn. now rewrite IH, orb_assoc.
Qed.

(** Dropping the rest of a match. *)
Lemma replace_from_skip (old new s t : string) :
  replace_from (String.length s) old new (s +:+ t) = replace_from 0 old new t.
Proof. induction s as [|c s IH]; [reflexivity|]. cbn. exact IH. Qed.

(** A match at the front is replaced and scanning resumes behind it. *)
Lemma replace_from_match (c : ascii) (old new t : string) :
  replace_from 0 (String c old) new (String c old +:+ t)
  = new +:+ replace_from 0 (String c old) new t.
Proof.
  cbn [String.append replace_from].
  rewrite (proj2 (prefix_app (String c old) (String c (old +:+ t))))
    by (exists t; reflexivity).
  f_equal. cbn [String.length].
  replace (S (String.length old) - 1) with (String.length old) by lia.
  apply replace_from_skip.
Qed.

(** Where no match starts, the characters are kept. *)
Lemma replace_from_keep (old new a t : string) :
  (forall x y, a +:+ t = x +:+ y -> String.length x < String.length a ->
               String.prefix old y = false) ->
  replace_from 0 old new (a +:+ t) = a +:+ replace_from 0 old new t.
Proof.
  induction a as [|c a IH]; intros Hfree; [reflexivity|].
  cbn [String.append replace_from].
  rewrite (Hfree "" (String c (a +:+ t))) by (cbn; first [reflexivity|lia]).
  f_equal. apply IH. intros x y Hxy Hlen.
  apply (Hfree (String c x) y); cbn; [now rewrite Hxy|lia].
Qed.

Lemma replace_from_nil (old new : string) : replace_from 0 old new "" = "".
Proof. reflexivity. Qed.

(** A string that ends in its only occurrence of [old] has it replaced. *)
Lemma replace_suffix (a new : string) (c : ascii) (old : string) :
  (forall x y, a +:+ String c old = x +:+ y ->
               String.length x < String.length a ->
               String.prefix (String c old) y = false) ->
  replace (a +:+ String c old) (String c old) new = a +:+ new.
Proof.
  intros Hfree. unfold replace. rewrite replace_from_keep by exact Hfree.
  rewrite <- (str_app_nil_r (String c old)) at 2.
  now rewrite replace_from_match, replace_from_nil, str_app_nil_r.
Qed.

Lemma replace_from_free (old new a t : string) :
  no_match_before old (String.length a) (a +:+ t) = true ->
  replace_from 0 old new (a +:+ t) = a +:+ replace_from 0 old new t.
Proof.
  induction a as [|c a IH]; [reflexivity|].
  cbn [String.length no_match_before String.append replace_from].
  intros [Hhere Hrest]%andb_true_iff.
  apply negb_true_iff in Hhere. rewrite Hhere.
  f_equal. now apply IH.
Qed.

(** A name that ends in its first occurrence of [old] has it replaced. *)
Lemma replace_at_end (a new : string) (c : ascii) (old : string) :
  no_match_before (String c old) (String.length a) (a +:+ String c old) = true ->
  replace (a +:+ String c old) (String c old) new = a +:+ new.
Proof.
  intros Hfree. unfold replace. rewrite replace_from_free by exact Hfree.
  rewrite <- (str_app_nil_r (String c old)) at 2.
  now rewrite replace_from_match, replace_from_nil, str_app_nil_r.
Qed.

(** Without an occurrence of [old] nothing is replaced. *)
Lemma replace_from_absent (old new s : string) :
  occurs old s = false -> replace_from 0 old new s = s.
Proof.
  induction s as [|c s IH]; [reflexivity|].
  cbn [occurs replace_from]. intros [Hhere Hrest]%orb_false_iff.
  rewrite Hhere. f_equal. auto.
Qed.

Lemma join_cons (sep x : string) (xs : list string) :
  join sep (x :: xs)
  = match xs with [] => x | _ :: _ => x +:+ sep +:+ join sep xs end.
Proof. reflexivity. Qed.

(** A non-empty join contains every character of its first element. *)
Lemma join_has_char (c : ascii) (sep x : string) (xs : list string) :
  has_char c x = true -> has_char c (join sep (x :: xs)) = true.
Proof.
  intros Hx. rewrite join_cons. destruct xs; [exact Hx|].
  now rewrite has_char_app, Hx.
Qed.

End StrFacts.

(** ** The scanner and the driver of [analyze_biopro_comprehensive.py] *)

Module AnalyzerFacts.
Import Str StrFacts Analyzer.

(** *** [sorted(list(set(xs)))] *)

Lemma sorted_set_elem_of (xs : list string) (e : string) :
  e ∈ sorted_set xs <-> e ∈ xs.
Proof.
  unfold sorted_set.
  now rewrite sorted_elem_of, elem_of_elements, elem_of_list_to_set.
Qed.

Lemma sorted_set_strict (xs : list string) :
  StronglySorted PyStr.lt (sorted_set xs).
Proof. apply sorted_strict, NoDup_elements. Qed.

Lemma sorted_set_NoDup (xs : list string) : NoDup (sorted_set xs).
Proof. apply sorted_NoDup, NoDup_elements. Qed.

(** The result depends on the elements only, not on their order or number. *)
Lemma sorted_set_ext (xs ys : list string) :
  (forall e, e ∈ xs <-> e ∈ ys) -> sorted_set xs = sorted_set ys.
Proof.
  intros Hsame. unfold sorted_set.
  apply sorted_same_elements; try apply NoDup_elements.
  intros e. now rewrite !elem_of_elements, !elem_of_list_to_set.
Qed.

Lemma fmap_of_bind {A B C : Type} (f : B -> C) (g : A -> list B) (l : list A) :
  f <$> (l ≫= g) = l ≫= (fun x => f <$> g x).
Proof.
  induction l as [|x l IH]; [reflexivity|].
  now rewrite !bind_cons, fmap_app, IH.
Qed.

(** *** Service ids *)

Lemma slash_split (r1 r2 s1 s2 : string) :
  has_char "/" r1 = false -> has_char "/" r2 = false ->
  r1 +:+ "/" +:+ s1 = r2 +:+ "/" +:+ s2 -> r1 = r2 /\ s1 = s2.
Proof.
  revert r2. induction r1 as [|c r1 IH]; intros [|c' r2]; cbn; intros H1 H2 Heq.
  - now injection Heq.
  - injection Heq as <- _. discriminate.
  - injection Heq as -> _. discriminate.
  - injection Heq as -> Heq.
    apply orb_false_iff in H1 as [_ H1], H2 as [_ H2].
    destruct (IH r2 H1 H2 Heq) as [-> ->]. auto.
Qed.

Lemma service_id_has_slash (repo_name : string) (service : Comprehensive.Service.t) :
  has_char "/" (Comprehensive.service_id repo_name service) = true.
Proof.
  unfold Comprehensive.service_id. rewrite !has_char_app. cbn.
  now rewrite orb_true_r.
Qed.

Lemma join_or_none_nonempty (x : string) (xs : list string) :
  has_char "/" x = true -> join_or_none (x :: xs) <> "NONE".
Proof.
  intros Hx Heq. unfold join_or_none in Heq.
  pose proof (join_has_char "/" ", " x xs Hx) as Hj.
  rewrite Heq in Hj. discriminate.
Qed.

Section WithHost.
Context `{Host}.

(** *** One file *)

Lemma process_file_unread (self : ServiceAnalyzer) (filepath : string) :
  process_file self (filepath, None) = self.
Proof. reflexivity. Qed.

Lemma test_path_no_kind (filepath : string) :
  occurs "/test/" filepath = true ->
  is_event_file filepath = false /\ is_listener_file filepath = false
  /\ is_producer_file filepath = false.
Proof.
  intros Htest. unfold is_event_file, is_listener_file, is_producer_file.
  rewrite Htest. cbn [negb]. rewrite !andb_false_r.
  split; [|auto]. now destruct (_ && _).
Qed.

Lemma process_file_test (self : ServiceAnalyzer) (jfile : string * option string) :
  occurs "/test/" jfile.1 = true -> process_file self jfile = self.
Proof.
  intros Htest. unfold process_file.
  destruct (test_path_no_kind _ Htest) as (-> & -> & ->).
  now destruct jfile.2.
Qed.

(** What one file may do to the analyzer: the identity fields stay. *)
Lemma process_file_identity (self : ServiceAnalyzer) (jfile : string * option string) :
  repo_name (process_file self jfile) = repo_name self
  /\ service_name (process_file self jfile) = service_name self
  /\ service_path (process_file self jfile) = service_path self.
Proof.
  unfold process_file, _process_event_file.
  destruct jfile.2; [|auto].
  destruct (is_event_file _); [now destruct (negb _)|].
  destruct (is_listener_file _); [auto|].
  now destruct (is_producer_file _).
Qed.

Lemma scan_files_identity (java_files : list (string * option string)) :
  forall self : ServiceAnalyzer,
    repo_name (scan_files self java_files) = repo_name self
    /\ service_name (scan_files self java_files) = service_name self
    /\ service_path (scan_files self java_files) = service_path self.
Proof.
  unfold scan_files.
  induction java_files as [|jfile files IH]; intros self; [auto|].
  cbn [foldl]. destruct (IH (process_file self jfile)) as (-> & -> & ->).
  apply process_file_identity.
Qed.

(** *** The recorded events *)





(** *** The collected names *)

Lemma process_file_names (P : string -> Prop) (self : ServiceAnalyzer)
    (jfile : string * option string) :
  (forall content e, e ∈ listener_events content -> P e) ->
  (forall content e, e ∈ producer_events content -> P e) ->
  (forall e, endswith e "Event" = true -> P e) ->
  Forall P (published_events self) /\ Forall P (consumed_events self) ->
  Forall P (published_events (process_file self jfile))
  /\ Forall P (consumed_events (process_file self jfile)).
Proof.
  intros Hl Hp Hev [Hpub Hcon]. unfold process_file.
  destruct jfile.2 as [content|]; [|auto].
  destruct (is_event_file _).
  { unfold _process_event_file.
    destruct (endswith (extract_class_name content jfile.1) "Event") eqn:Hend;
      cbn [negb]; [|auto].
    cbn [published_events consumed_events].
    destruct (_ || _); [|destruct (_ || _)]; rewrite ?Forall_app, ?Forall_singleton;
      auto. }
  destruct (is_listener_file _).
  { cbn [_process_listener_file published_events consumed_events].
    split; [exact Hpub|]. apply Forall_forall. intros e He.
    apply foldl_push_elem_of in He as [He|He]; [|eauto].
    rewrite Forall_forall in Hcon. auto. }
  destruct (is_producer_file _); [|auto].
  cbn [_process_producer_file published_events consumed_events].
  split; [|exact Hcon]. apply Forall_forall. intros e He.
  apply foldl_push_elem_of in He as [He|He]; [|eauto].
  rewrite Forall_forall in Hpub. auto.
Qed.

Lemma scan_files_names (P : string -> Prop)
    (java_files : list (string * option string)) :
  (forall content e, e ∈ listener_events content -> P e) ->
  (forall content e, e ∈ producer_events content -> P e) ->
  (forall e, endswith e "Event" = true -> P e) ->
  forall self : ServiceAnalyzer,
    Forall P (published_events self) /\ Forall P (consumed_events self) ->
    Forall P (published_events (scan_files self java_files))
    /\ Forall P (consumed_events (scan_files self java_files)).
Proof.
  intros Hl Hp Hev. unfold scan_files.
  induction java_files as [|jfile files IH]; intros self Hself; [exact Hself|].
  cbn [foldl]. now apply IH, process_file_names.
Qed.

(** *** One repository *)

Lemma analyze_name (self : ServiceAnalyzer) :
  ServiceInfo.name (analyze self) = service_name self
  /\ ServiceInfo.repository (analyze self) = repo_name self.
Proof.
  unfold analyze. cbn.
  destruct (scan_files_identity (rglob_java (service_path self)) self)
    as (-> & -> & _).
  auto.
Qed.

Lemma analyze_service_names (repo_name repo_path : string)
    (names : list string) :
  forall services : list ServiceInfo.t,
    ServiceInfo.name <$> foldl (analyze_service repo_name repo_path) services names
    = (ServiceInfo.name <$> services)
      ++ filter (fun service_name =>
                   path_exists (path_join (path_join repo_path "backend")
                                          service_name) = true)
                names.
Proof.
  induction names as [|n names IH]; intros services; cbn [foldl].
  - now rewrite filter_nil, List.app_nil_r.
  - rewrite IH, filter_cons. unfold analyze_service.
    destruct (path_exists _) eqn:Hex.
    + rewrite decide_True by reflexivity.
      rewrite fmap_app, <- List.app_assoc, list_fmap_singleton.
      now rewrite (proj1 (analyze_name _)).
    + rewrite decide_False by discriminate. reflexivity.
Qed.

Lemma analyze_service_repository (repo_name repo_path : string)
    (names : list string) :
  forall services : list ServiceInfo.t,
    Forall (fun info => ServiceInfo.repository info = repo_name) services ->
    Forall (fun info => ServiceInfo.repository info = repo_name)
           (foldl (analyze_service repo_name repo_path) services names).
Proof.
  induction names as [|n names IH]; intros services Hall; [exact Hall|].
  cbn [foldl]. apply IH. unfold analyze_service.
  destruct (path_exists _); [|exact Hall].
  apply Forall_app. split; [exact Hall|]. apply Forall_singleton.
  apply analyze_name.
Qed.

Lemma analyze_service_sets (repo_name repo_path : string) (names : list string) :
  forall services : list ServiceInfo.t,
    Forall (fun info => NoDup (ServiceInfo.publishes info)
                        /\ NoDup (ServiceInfo.consumes info)) services ->
    Forall (fun info => NoDup (ServiceInfo.publishes info)
                        /\ NoDup (ServiceInfo.consumes info))
           (foldl (analyze_service repo_name repo_path) services names).
Proof.
  induction names as [|n names IH]; intros services Hall; [exact Hall|].
  cbn [foldl]. apply IH. unfold analyze_service.
  destruct (path_exists _); [|exact Hall].
  apply Forall_app. split; [exact Hall|]. apply Forall_singleton.
  split; apply sorted_set_NoDup.
Qed.

Lemma analyze_repository_names (repo_name : string) (repo_config : RepoConfig.t) :
  ServiceInfo.name <$> RepoInfo.services (analyze_repository repo_name repo_config)
  = if path_exists (RepoConfig.path repo_config)
    then filter (fun service_name =>
                   path_exists (path_join (path_join (RepoConfig.path repo_config)
                                                     "backend")
                                          service_name) = true)
                (RepoConfig.services repo_config)
    else [].
Proof.
  unfold analyze_repository. destruct (path_exists (RepoConfig.path _)); cbn.
  - now rewrite analyze_service_names.
  - reflexivity.
Qed.

Lemma analyze_repository_sets (repo_name : string) (repo_config : RepoConfig.t) :
  Forall (fun info => NoDup (ServiceInfo.publishes info)
                      /\ NoDup (ServiceInfo.consumes info))
         (RepoInfo.services (analyze_repository repo_name repo_config)).
Proof.
  unfold analyze_repository. destruct (path_exists (RepoConfig.path _)); cbn.
  - now apply analyze_service_sets.
  - constructor.
Qed.

Lemma analyze_repository_name (repo_name : string) (repo_config : RepoConfig.t) :
  RepoInfo.name (analyze_repository repo_name repo_config) = repo_name.
Proof. unfold analyze_repository. now destruct (negb _). Qed.

(** *** The whole run *)

(** The facts [map_flows] sees, one repository at a time. *)
Lemma facts_of_analysis (config : list (string * RepoConfig.t)) :
  Comprehensive.facts (to_repo <$> analyze_all config)
  = config ≫= (fun entry =>
                 Comprehensive.facts_of_repo
                   (to_repo (analyze_repository entry.1 entry.2))).
Proof.
  unfold Comprehensive.facts, analyze_all.
  induction config as [|entry config IH]; [reflexivity|].
  rewrite !fmap_cons, !bind_cons. now rewrite IH.
Qed.

Lemma fact_ids_of_repository (repo_name : string) (repo_config : RepoConfig.t) :
  Comprehensive.fact_id
    <$> Comprehensive.facts_of_repo (to_repo (analyze_repository repo_name repo_config))
  = (fun service_name => repo_name +:+ "/" +:+ service_name)
      <$> (ServiceInfo.name
             <$> RepoInfo.services (analyze_repository repo_name repo_config)).
Proof.
  unfold Comprehensive.facts_of_repo, to_repo. cbn.
  rewrite analyze_repository_name, <- !list_fmap_compose.
  now apply list_fmap_ext.
Qed.

Lemma fact_ids_of_repository_NoDup (repo_name : string) (repo_config : RepoConfig.t) :
  NoDup (RepoConfig.services repo_config) ->
  NoDup (Comprehensive.fact_id
           <$> Comprehensive.facts_of_repo
                 (to_repo (analyze_repository repo_name repo_config))).
Proof.
  intros Hnd. rewrite fact_ids_of_repository, analyze_repository_names.
  apply NoDup_fmap; [apply _|].
  destruct (path_exists _); [|constructor].
  eapply sublist_NoDup; [exact Hnd|apply sublist_filter].
Qed.

Lemma fact_id_repository (repo_name : string) (repo_config : RepoConfig.t)
    (f : Comprehensive.Fact) :
  f ∈ Comprehensive.facts_of_repo (to_repo (analyze_repository repo_name repo_config)) ->
  exists service_name, Comprehensive.fact_id f = repo_name +:+ "/" +:+ service_name.
Proof.
  intros Hf.
  assert (Comprehensive.fact_id f
          ∈ Comprehensive.fact_id
              <$> Comprehensive.facts_of_repo
                    (to_repo (analyze_repository repo_name repo_config))) as Hid
    by (apply list_elem_of_fmap; eauto).
  rewrite fact_ids_of_repository in Hid.
  apply list_elem_of_fmap in Hid as (n & -> & _). eauto.
Qed.

Lemma key_determines_entry {V : Type} (l : list (string * V)) (k : string) (v1 v2 : V) :
  NoDup l.*1 -> (k, v1) ∈ l -> (k, v2) ∈ l -> v1 = v2.
Proof.
  induction l as [|[k0 v0] l IH]; intros Hnd H1 H2.
  - now apply elem_of_nil in H1.
  - rewrite fmap_cons in Hnd. apply NoDup_cons in Hnd as [Hk0 Hnd].
    assert (forall v, (k0, v) ∈ l -> False) as Hfresh.
    { intros v Hv. apply Hk0. apply list_elem_of_fmap. exists (k0, v). auto. }
    apply elem_of_cons in H1 as [H1|H1], H2 as [H2|H2].
    + congruence.
    + injection H1 as -> ->. now apply Hfresh in H2.
    + injection H2 as -> ->. now apply Hfresh in H1.
    + auto.
Qed.

(** With distinct, slash-free repository names and no service configured
    twice in a repository, no service id is seen twice. *)
Lemma analysis_ids_NoDup (config : list (string * RepoConfig.t)) :
  NoDup config.*1 ->
  Forall (fun entry => has_char "/" entry.1 = false
                       /\ NoDup (RepoConfig.services entry.2)) config ->
  NoDup (Comprehensive.fact_id
           <$> Comprehensive.facts (to_repo <$> analyze_all config)).
Proof.
  intros Hkeys Hcfg. rewrite facts_of_analysis.
  rewrite Forall_forall in Hcfg.
  assert (NoDup config) as Hnd by (eapply NoDup_fmap_1; exact Hkeys).
  rewrite fmap_of_bind. apply NoDup_bind; [| |exact Hnd].
  - intros [n1 c1] [n2 c2] y H1 H2 Hy1 Hy2. cbn in Hy1, Hy2.
    apply list_elem_of_fmap in Hy1 as (f1 & -> & Hf1).
    apply list_elem_of_fmap in Hy2 as (f2 & Hid & Hf2).
    apply fact_id_repository in Hf1 as [s1 Hs1], Hf2 as [s2 Hs2].
    rewrite Hs1, Hs2 in Hid.
    apply slash_split in Hid as [-> _];
      [|apply (Hcfg _ H1)|apply (Hcfg _ H2)].
    f_equal. eapply key_determines_entry; eauto.
  - intros [n c] Hin. cbn. apply fact_ids_of_repository_NoDup.
    apply (Hcfg _ Hin).
Qed.

Lemma analysis_sets (config : list (string * RepoConfig.t)) :
  Forall (fun f => NoDup (Comprehensive.published f)
                   /\ NoDup (Comprehensive.consumed f))
         (Comprehensive.facts (to_repo <$> analyze_all config)).
Proof.
  rewrite facts_of_analysis. apply Forall_forall. intros f Hf.
  apply list_elem_of_bind in Hf as ([n c] & Hf & _). cbn in Hf.
  unfold Comprehensive.facts_of_repo, to_repo in Hf. cbn in Hf.
  rewrite <- list_fmap_compose in Hf.
  apply list_elem_of_fmap in Hf as (info & -> & Hinfo). cbn.
  pose proof (analyze_repository_sets n c) as Hsets.
  rewrite Forall_forall in Hsets. now apply Hsets.
Qed.

End WithHost.

End AnalyzerFacts.

(** ** The scanner and the driver of [extract_with_consumers.py] *)

Module ExtractorFacts.
Import Str StrFacts WithConsumers WithConsumersFacts Extractor.

(** *** Lists *)

Lemma filter_fmap_comm {A B : Type} (f : A -> B) (P : B -> Prop)
    `{forall y, Decision (P y)} (l : list A) :
  filter P (f <$> l) = f <$> filter (fun x => P (f x)) l.
Proof.
  induction l as [|x l IH]; [reflexivity|].
  rewrite fmap_cons, !filter_cons, IH.
  destruct (decide (P (f x))); reflexivity.
Qed.

Lemma filter_ext_in {A : Type} (P Q : A -> Prop)
    `{forall x, Decision (P x)} `{forall x, Decision (Q x)} (l : list A) :
  (forall x, x ∈ l -> (P x <-> Q x)) -> filter P l = filter Q l.
Proof.
  induction l as [|x l IH]; intros Hext; [reflexivity|].
  rewrite !filter_cons, IH by (intros y Hy; apply Hext; now right).
  destruct (decide (P x)) as [HP|HP], (decide (Q x)) as [HQ|HQ];
    try reflexivity; exfalso; apply (Hext x (list_elem_of_here _ _)) in HP ||
    apply (Hext x (list_elem_of_here _ _)) in HQ; contradiction.
Qed.

(** The service name is offered once per listing, whatever the order. *)
Lemma mentions_Permutation (e s : string) (names names' : list string) :
  names ≡ₚ names' -> mentions e names s = mentions e names' s.
Proof.
  induction 1 as [|n l l' _ IH|a b l|l1 l2 l3 _ IH1 _ IH2].
  - reflexivity.
  - now rewrite !mentions_cons, IH.
  - rewrite !mentions_cons.
    destruct (decide (a = e)), (decide (b = e)); reflexivity.
  - congruence.
Qed.

Lemma flow_eq (fl fl' : Flow) :
  publishers fl = publishers fl' -> consumers fl = consumers fl' -> fl = fl'.
Proof. destruct fl, fl'; cbn. now intros -> ->. Qed.

(** *** The dict after a run *)

Lemma run_entry (scans : list Scan) (e : string) (fl : Flow) :
  (e, fl) ∈ foldl step [] scans
  <-> e ∈ names_of scans
      /\ publishers fl = first_seen (offered Pub e scans)
      /\ consumers fl = first_seen (offered Con e scans).
Proof.
  split.
  - intros Hin.
    assert (e ∈ keys (foldl step [] scans)) as Hkey
      by (apply list_elem_of_fmap; exists (e, fl); auto).
    rewrite run_keys, first_seen_elem_of in Hkey. split; [exact Hkey|].
    apply getitem_entry in Hin; [|apply run_keys_NoDup].
    apply getitem_view in Hin as [-> ->]. now rewrite !run_view.
  - intros (Hname & Hp & Hc).
    assert (is_Some (getitem (foldl step [] scans) e)) as [fl' Hget].
    { apply getitem_keys. now rewrite run_keys, first_seen_elem_of. }
    pose proof (getitem_view _ _ _ Hget) as [Hp' Hc'].
    rewrite !run_view in Hp', Hc'.
    rewrite (flow_eq fl fl') by congruence. now apply getitem_elem_of.
Qed.

Lemma consumed_somewhere (scans : list Scan) (e : string) :
  first_seen (offered Con e scans) <> []
  <-> e ∈ scans ≫= consumed_event_names.
Proof.
  rewrite first_seen_nil_iff, ComprehensiveFacts.nonempty_elem,
    list_elem_of_bind. split.
  - intros (s & (scan & Hscan & _ & He)%offered_elem_of). eauto.
  - intros (scan & He & Hscan). exists (service_name scan).
    apply offered_elem_of. eauto.
Qed.

Lemma consumed_names_listed (scans : list Scan) (e : string) :
  e ∈ scans ≫= consumed_event_names -> e ∈ names_of scans.
Proof.
  unfold names_of. rewrite !list_elem_of_bind. intros (scan & He & Hscan).
  exists scan. rewrite elem_of_app. auto.
Qed.

(** The flows with a consumer are counted by the distinct consumed names. *)
Lemma events_with_consumers_run (scans : list Scan) :
  events_with_consumers (foldl step [] scans)
  = length (first_seen (scans ≫= consumed_event_names)).
Proof.
  unfold events_with_consumers.
  rewrite (filter_ext_in _ (fun entry => entry.1 ∈ scans ≫= consumed_event_names)).
  - transitivity
      (length (filter (fun k => k ∈ scans ≫= consumed_event_names)
                      (keys (foldl step [] scans)))).
    { unfold keys. now rewrite filter_fmap_comm, length_fmap. }
    rewrite run_keys.
    apply Permutation_length, NoDup_Permutation.
    + apply NoDup_filter, first_seen_NoDup.
    + apply first_seen_NoDup.
    + intros e. rewrite list_elem_of_filter, !first_seen_elem_of.
      split; [tauto|]. intros He. split; [exact He|].
      now apply consumed_names_listed.
  - intros [e fl] (_ & _ & Hc)%run_entry. cbn [fst snd].
    now rewrite Hc, consumed_somewhere.
Qed.

Lemma events_with_consumers_le (d : list (string * Flow)) :
  events_with_consumers d <= length d.
Proof. apply length_filter. Qed.

(** *** The order of a set *)

Lemma offered_set_order (sd : Side) (e : string) (scans scans' : list Scan) :
  Forall2 same_up_to_set_order scans scans' ->
  offered sd e scans = offered sd e scans'.
Proof.
  unfold offered. induction 1 as [|scan scan' scans scans' Hsame _ IH];
    [reflexivity|].
  rewrite !bind_cons, IH. f_equal.
  destruct Hsame as (-> & Hev & Hperm).
  destruct sd; cbn [side_names].
  - unfold published_event_names. now rewrite Hev.
  - now apply mentions_Permutation.
Qed.

Lemma names_of_set_order (scans scans' : list Scan) :
  Forall2 same_up_to_set_order scans scans' ->
  names_of scans ≡ₚ names_of scans'.
Proof.
  unfold names_of. induction 1 as [|scan scan' scans scans' Hsame _ IH];
    [reflexivity|].
  rewrite !bind_cons, IH. destruct Hsame as (_ & Hev & Hperm).
  unfold published_event_names. now rewrite Hev, Hperm.
Qed.

(** *** Running [main] *)

Section WithHost.
Context `{Host}.

Lemma listener_events_NoDup (file_path : string) :
  NoDup (extract_consumed_events_from_listener file_path).
Proof.
  unfold extract_consumed_events_from_listener.
  destruct (read_text file_path); [|constructor].
  do 2 apply foldl_push_NoDup.
  destruct (endswith _ _); [apply NoDup_singleton|constructor].
Qed.

Lemma process_service_total (repo : Repo.t) (st : State) (service_name : string) :
  exists st',
    process_service repo st service_name = Some st'
    /\ event_flows st'
       = foldl step (event_flows st)
               (scans_of_repo {| Repo.name := Repo.name repo;
                                 Repo.path := Repo.path repo;
                                 Repo.services := [service_name] |})
    /\ all_events st'
       = all_events st
         ++ (scans_of_repo {| Repo.name := Repo.name repo;
                              Repo.path := Repo.path repo;
                              Repo.services := [service_name] |}
               ≫= service_events)
    /\ all_services st'
       = all_services st
         ++ (service_record repo
               <$> scans_of_repo {| Repo.name := Repo.name repo;
                                    Repo.path := Repo.path repo;
                                    Repo.services := [service_name] |}).
Proof.
  unfold process_service, scans_of_repo. cbn [Repo.path Repo.services].
  rewrite filter_cons, filter_nil.
  destruct (path_exists _) eqn:Hex; cbn [negb].
  - rewrite decide_True by reflexivity.
    rewrite track_service_step. cbn.
    eexists. split; [reflexivity|]. cbn. now rewrite List.app_nil_r.
  - rewrite decide_False by discriminate. cbn.
    exists st. now rewrite !List.app_nil_r.
Qed.

Lemma scans_of_repo_cons (n p : string) (service_name : string) (names : list string) :
  scans_of_repo {| Repo.name := n; Repo.path := p;
                   Repo.services := service_name :: names |}
  = scans_of_repo {| Repo.name := n; Repo.path := p;
                     Repo.services := [service_name] |}
    ++ scans_of_repo {| Repo.name := n; Repo.path := p; Repo.services := names |}.
Proof.
  unfold scans_of_repo. cbn [Repo.path Repo.services].
  rewrite <- fmap_app. f_equal.
  change (service_name :: names) with ([service_name] ++ names).
  now rewrite filter_app.
Qed.

Lemma process_services_total (repo : Repo.t) (names : list string) :
  forall st : State,
    exists st',
      for_each (process_service repo) st names = Some st'
      /\ event_flows st'
         = foldl step (event_flows st)
                 (scans_of_repo {| Repo.name := Repo.name repo;
                                   Repo.path := Repo.path repo;
                                   Repo.services := names |})
      /\ all_events st'
         = all_events st
           ++ (scans_of_repo {| Repo.name := Repo.name repo;
                                Repo.path := Repo.path repo;
                                Repo.services := names |}
                 ≫= service_events)
      /\ all_services st'
         = all_services st
           ++ (service_record repo
                 <$> scans_of_repo {| Repo.name := Repo.name repo;
                                      Repo.path := Repo.path repo;
                                      Repo.services := names |}).
Proof.
  induction names as [|n names IH]; intros st.
  - exists st. cbn. now rewrite !List.app_nil_r.
  - cbn [for_each].
    destruct (process_service_total repo st n) as (st1 & -> & Hf1 & He1 & Hs1).
    cbn [mbind option_bind].
    destruct (IH st1) as (st2 & -> & Hf2 & He2 & Hs2).
    exists st2. split; [reflexivity|].
    rewrite scans_of_repo_cons, foldl_app, bind_app, fmap_app.
    rewrite Hf2, He2, Hs2, Hf1, He1, Hs1.
    now rewrite <- !List.app_assoc.
Qed.

Lemma process_repo_total (repo : Repo.t) (st : State) :
  exists st',
    process_repo st repo = Some st'
    /\ event_flows st' = foldl step (event_flows st) (scans_of_repo repo)
    /\ all_events st' = all_events st ++ (scans_of_repo repo ≫= service_events)
    /\ all_services st'
       = all_services st ++ (service_record repo <$> scans_of_repo repo).
Proof.
  unfold process_repo.
  destruct (process_services_total repo (Repo.services repo) st)
    as (st' & Hrun & Hf & He & Hs).
  exists st'. now destruct repo.
Qed.

Lemma process_repos_total (REPOS : list Repo.t) :
  forall st : State,
    exists st',
      for_each process_repo st REPOS = Some st'
      /\ event_flows st' = foldl step (event_flows st) (scans_of REPOS)
      /\ all_events st' = all_events st ++ (scans_of REPOS ≫= service_events)
      /\ length (all_services st')
         = length (all_services st) + length (scans_of REPOS).
Proof.
  unfold scans_of.
  induction REPOS as [|repo REPOS IH]; intros st.
  - exists st. cbn. now rewrite List.app_nil_r, Nat.add_0_r.
  - cbn [for_each].
    destruct (process_repo_total repo st) as (st1 & -> & Hf1 & He1 & Hs1).
    cbn [mbind option_bind].
    destruct (IH st1) as (st2 & -> & Hf2 & He2 & Hs2).
    exists st2. split; [reflexivity|].
    rewrite bind_cons, foldl_app, bind_app, length_app.
    rewrite Hf2, He2, Hs2, Hf1, He1, Hs1, length_app, length_fmap.
    rewrite <- List.app_assoc. split; [reflexivity|]. split; [reflexivity|]. lia.
Qed.

End WithHost.

End ExtractorFacts.

(** ** The tracking block of [extract_all_biopro_repos.py] *)

Module UnguardedFacts.
Import WithConsumers WithConsumersFacts.

Lemma unguarded_track_publisher_add (s : string) (d : list (string * Flow)) (ev : EventInfo) :
  Unguarded.track_publisher s d ev = Some (Unguarded.add Pub s d (name ev)).
Proof.
  unfold Unguarded.track_publisher, Unguarded.add, contains.
  destruct (getitem d (name ev)) as [fl|] eqn:Hget; cbn [negb].
  - rewrite Hget. reflexivity.
  - rewrite getitem_setitem, decide_True by reflexivity.
    cbn [mbind option_bind default]. now rewrite setitem_setitem.
Qed.

Lemma unguarded_track_consumer_add (s : string) (d : list (string * Flow))
    (c : Unguarded.Consumer) :
  Unguarded.track_consumer s d c
  = Some (Unguarded.add Con s d (Unguarded.event c)).
Proof.
  unfold Unguarded.track_consumer, Unguarded.add, contains.
  destruct (getitem d (Unguarded.event c)) as [fl|] eqn:Hget; cbn [negb].
  - rewrite Hget. reflexivity.
  - rewrite getitem_setitem, decide_True by reflexivity.
    cbn [mbind option_bind default]. now rewrite setitem_setitem.
Qed.

Lemma unguarded_track_service_step (d : list (string * Flow)) (scan : Unguarded.Scan) :
  Unguarded.track_service d scan = Some (Unguarded.step d scan).
Proof.
  unfold Unguarded.track_service, Unguarded.step.
  rewrite (for_each_total _ (fun d ev => Unguarded.add Pub
                                           (Unguarded.service_name scan) d (name ev)))
    by apply unguarded_track_publisher_add.
  cbn [mbind option_bind].
  rewrite (for_each_total _ (fun d c => Unguarded.add Con
                                          (Unguarded.service_name scan) d
                                          (Unguarded.event c)))
    by apply unguarded_track_consumer_add.
  now rewrite !foldl_fmap.
Qed.

Lemma unguarded_track_all_run (scans : list Unguarded.Scan) :
  Unguarded.track_all scans = Some (foldl Unguarded.step [] scans).
Proof. apply for_each_total, unguarded_track_service_step. Qed.

Lemma unguarded_keys_add (sd : Side) (s : string) (d : list (string * Flow)) (k : string) :
  keys (Unguarded.add sd s d k) = push (keys d) k.
Proof. apply keys_setitem. Qed.

Lemma unguarded_view_add (sd sd' : Side) (s : string) (d : list (string * Flow))
    (k k' : string) :
  view (Unguarded.add sd s d k) k' sd'
  = if decide (k = k' /\ sd = sd') then view d k' sd' ++ [s] else view d k' sd'.
Proof.
  unfold view, Unguarded.add. rewrite getitem_setitem.
  destruct (decide (k = k')) as [<-|Hk]; cbn [from_option id].
  - rewrite side_get_add. destruct (decide (sd = sd')) as [<-|Hsd].
    + now rewrite decide_True.
    + rewrite decide_False by tauto. reflexivity.
  - rewrite decide_False by tauto. reflexivity.
Qed.

Lemma unguarded_keys_add_all (sd : Side) (s : string) (names : list string) :
  forall d, keys (foldl (Unguarded.add sd s) d names) = foldl push (keys d) names.
Proof.
  induction names as [|n names IH]; intros d; cbn [foldl]; [reflexivity|].
  now rewrite IH, unguarded_keys_add.
Qed.

Lemma unguarded_view_add_all (sd sd' : Side) (s e : string) (names : list string) :
  forall d,
    view (foldl (Unguarded.add sd s) d names) e sd'
    = if decide (sd = sd')
      then view d e sd' ++ mentions e names s
      else view d e sd'.
Proof.
  induction names as [|n names IH]; intros d; cbn [foldl].
  - destruct (decide (sd = sd')); [|reflexivity].
    unfold mentions. cbn. now rewrite List.app_nil_r.
  - rewrite IH, unguarded_view_add, mentions_cons.
    destruct (decide (sd = sd')) as [<-|Hsd].
    + destruct (decide (n = e)) as [->|Hne].
      * rewrite decide_True by auto. now rewrite <- List.app_assoc.
      * rewrite decide_False by tauto. reflexivity.
    + rewrite decide_False by tauto. reflexivity.
Qed.

Lemma unguarded_keys_run (scans : list Unguarded.Scan) :
  forall d,
    keys (foldl Unguarded.step d scans)
    = foldl push (keys d) (names_of (Unguarded.to_scan <$> scans)).
Proof.
  unfold names_of.
  induction scans as [|scan scans IH]; intros d; [reflexivity|].
  cbn [foldl]. rewrite fmap_cons, bind_cons, foldl_app, IH. f_equal.
  unfold Unguarded.step. now rewrite !unguarded_keys_add_all, foldl_app.
Qed.

Lemma unguarded_view_run (scans : list Unguarded.Scan) (e : string) (sd : Side) :
  forall d,
    view (foldl Unguarded.step d scans) e sd
    = view d e sd ++ offered sd e (Unguarded.to_scan <$> scans).
Proof.
  unfold offered.
  induction scans as [|scan scans IH]; intros d.
  - cbn. now rewrite List.app_nil_r.
  - cbn [foldl]. rewrite fmap_cons, bind_cons, IH, List.app_assoc. f_equal.
    unfold Unguarded.step. rewrite !unguarded_view_add_all.
    destruct sd; reflexivity.
Qed.

End UnguardedFacts.

(** ** What [analyze_biopro_comprehensive.py] does around [map_flows] *)

Section AnalyzerProperties.
Import Str StrFacts Analyzer AnalyzerFacts Comprehensive ComprehensiveFacts.

(** X1: the [publishes] and [consumes] lists of a service dict are in
    strictly ascending order and hold exactly the names the analyzer
    collected, each once. *)
Theorem service_info_lists_sorted (self : ServiceAnalyzer) :
  StronglySorted PyStr.lt (ServiceInfo.publishes (_build_service_info self))
  /\ StronglySorted PyStr.lt (ServiceInfo.consumes (_build_service_info self))
  /\ (forall e, e ∈ ServiceInfo.publishes (_build_service_info self)
                <-> e ∈ published_events self)
  /\ (forall e, e ∈ ServiceInfo.consumes (_build_service_info self)
                <-> e ∈ consumed_events self).
Proof.
  split; [apply sorted_set_strict|]. split; [apply sorted_set_strict|].
  split; intros e; apply sorted_set_elem_of.
Qed.

(** X2: a listener file adds to [consumed_events] each matched name not yet
    there, behind what was collected before and without creating a
    duplicate, and touches nothing else; a producer file does the same to
    [published_events]. *)
Theorem listener_and_producer_add_unseen {host : Host} (self : ServiceAnalyzer)
    (filepath content : string) :
  NoDup (consumed_events self) ->
  NoDup (published_events self) ->
  (NoDup (consumed_events (_process_listener_file self filepath content))
   /\ consumed_events self
        `prefix_of` consumed_events (_process_listener_file self filepath content)
   /\ (forall e, e ∈ consumed_events (_process_listener_file self filepath content)
                 <-> e ∈ consumed_events self \/ e ∈ listener_events content)
   /\ published_events (_process_listener_file self filepath content)
      = published_events self
   /\ event_details (_process_listener_file self filepath content)
      = event_details self)
  /\ (NoDup (published_events (_process_producer_file self filepath content))
      /\ published_events self
           `prefix_of` published_events (_process_producer_file self filepath content)
      /\ (forall e, e ∈ published_events (_process_producer_file self filepath content)
                    <-> e ∈ published_events self \/ e ∈ producer_events content)
      /\ consumed_events (_process_producer_file self filepath content)
         = consumed_events self
      /\ event_details (_process_producer_file self filepath content)
         = event_details self).
Proof.
  intros Hcon Hpub. split.
  - cbn [_process_listener_file consumed_events published_events event_details].
    split; [now apply foldl_push_NoDup|].
    split; [apply foldl_push_prefix|].
    split; [intros e; apply foldl_push_elem_of|auto].
  - cbn [_process_producer_file consumed_events published_events event_details].
    split; [now apply foldl_push_NoDup|].
    split; [apply foldl_push_prefix|].
    split; [intros e; apply foldl_push_elem_of|auto].
Qed.

Lemma listener_and_producer_add_unseen_witness :
  (NoDup ["OrderEvent"; "PaymentEvent"]
   /\ ["OrderEvent"] `prefix_of` ["OrderEvent"; "PaymentEvent"]
   /\ (forall e, e ∈ ["OrderEvent"; "PaymentEvent"]
                 <-> e ∈ ["OrderEvent"] \/ e ∈ ["PaymentEvent"])
   /\ @nil string = [] /\ @nil EventInfo.t = [])
  /\ (NoDup ["PaymentEvent"]
      /\ [] `prefix_of` ["PaymentEvent"]
      /\ (forall e, e ∈ ["PaymentEvent"] <-> e ∈ @nil string \/ e ∈ ["PaymentEvent"])
      /\ ["OrderEvent"] = ["OrderEvent"] /\ @nil EventInfo.t = []).
Proof.
  apply (listener_and_producer_add_unseen (host := example_host)
           {| repo_name := "r"; service_name := "s"; service_path := "p";
              published_events := []; consumed_events := ["OrderEvent"];
              event_details := [] |}
           "p/PaymentListener.java" "PaymentEvent").
  - apply NoDup_singleton.
  - constructor.
Defined.

(** X3: files under a [/test/] directory and files whose text cannot be
    read never influence the analysis: the analyzer ends in the state it
    would reach if those files were not there. *)
Theorem test_and_unreadable_files_ignored {host : Host} (self : ServiceAnalyzer)
    (java_files : list (string * option string)) :
  scan_files self java_files
  = scan_files self
      (filter (fun jfile => is_Some jfile.2 /\ occurs "/test/" jfile.1 = false)
              java_files).
Proof.
  unfold scan_files. revert self.
  induction java_files as [|jfile files IH]; intros self; [reflexivity|].
  rewrite filter_cons. cbn [foldl].
  destruct (decide (is_Some jfile.2 /\ occurs "/test/" jfile.1 = false))
    as [Hkeep|Hdrop].
  - cbn [foldl]. apply IH.
  - rewrite <- IH. f_equal.
    destruct jfile as [filepath [content|]]; [|reflexivity].
    apply process_file_test. cbn in *.
    destruct (occurs "/test/" filepath); [reflexivity|].
    exfalso. apply Hdrop. eauto.
Qed.

(** X4: a Java file whose name contains both "Event" and "Listener" is
    taken for an event definition, although [is_listener_file] accepts it;
    when its class name does not end in "Event" the file is dropped and the
    events it listens to are not recorded. *)
Theorem event_named_listener_not_scanned {host : Host} (self : ServiceAnalyzer)
    (filepath content : string) :
  occurs "Event" (path_name filepath) = true ->
  occurs "Listener" (path_name filepath) = true ->
  endswith (path_name filepath) ".java" = true ->
  occurs "Test" (path_name filepath) = false ->
  occurs "/test/" filepath = false ->
  existsb (fun x => occurs x (path_name filepath))
          ["AbstractEvent"; "DomainEvent"; "EventMessage"] = false ->
  endswith (extract_class_name content filepath) "Event" = false ->
  is_listener_file filepath = true
  /\ process_file self (filepath, Some content) = self.
Proof.
  intros Hev Hli Hjava Htest Hdir Hbase Hclass. split.
  - unfold is_listener_file. now rewrite Hli, Hjava, Hdir.
  - unfold process_file, is_event_file. cbn [fst snd].
    rewrite Hev, Hjava, Htest, Hdir, Hbase. cbn [andb negb].
    unfold _process_event_file. now rewrite Hclass.
Qed.

Lemma event_named_listener_not_scanned_witness :
  @is_listener_file example_host "svc/OrderEventListener.java" = true
  /\ @process_file example_host (new_analyzer "r" "s" "svc")
       ("svc/OrderEventListener.java", Some "OrderEventListener")
     = new_analyzer "r" "s" "svc".
Proof.
  apply (event_named_listener_not_scanned (host := example_host));
    vm_compute; reflexivity.
Defined.


(** X6: when the two scanning patterns only capture names ending in
    "Event", as their [(\w+Event)] group does, every name a service
    analysis lists under [publishes] or [consumes] ends in "Event". *)
Theorem collected_names_end_in_event {host : Host}
    (repo_name service_name service_path : string) :
  (forall content e, e ∈ listener_events content -> endswith e "Event" = true) ->
  (forall content e, e ∈ producer_events content -> endswith e "Event" = true) ->
  Forall (fun e => endswith e "Event" = true)
         (ServiceInfo.publishes
            (analyze (new_analyzer repo_name service_name service_path)))
  /\ Forall (fun e => endswith e "Event" = true)
            (ServiceInfo.consumes
               (analyze (new_analyzer repo_name service_name service_path))).
Proof.
  intros Hl Hp. unfold analyze.
  cbn [_build_service_info ServiceInfo.publishes ServiceInfo.consumes].
  destruct (scan_files_names (fun e => endswith e "Event" = true)
              (rglob_java (Analyzer.service_path
                             (new_analyzer repo_name service_name service_path)))
              Hl Hp (fun e He => He)
              (new_analyzer repo_name service_name service_path))
    as [Hpub Hcon]; [split; constructor|].
  rewrite Forall_forall in Hpub, Hcon.
  split; apply Forall_forall; intros e He;
    apply (proj1 (sorted_set_elem_of _ _)) in He; auto.
Qed.

Lemma collected_names_end_in_event_witness :
  Forall (fun e => endswith e "Event" = true)
         (ServiceInfo.publishes
            (@analyze example_host (new_analyzer "r" "s" "r/backend/s")))
  /\ Forall (fun e => endswith e "Event" = true)
            (ServiceInfo.consumes
               (@analyze example_host (new_analyzer "r" "s" "r/backend/s"))).
Proof.
  apply (collected_names_end_in_event (host := example_host)).
  - intros content e. cbn.
    destruct (endswith content "Event") eqn:Hend; [|intros []%elem_of_nil].
    now intros ->%list_elem_of_singleton.
  - intros content e. cbn.
    destruct (endswith content "Event") eqn:Hend; [|intros []%elem_of_nil].
    now intros ->%list_elem_of_singleton.
Defined.

(** X7: a repository analysis returns the configured services whose
    directory exists, in configured order, each tagged with the repository
    name; it returns no service when the repository directory is missing. *)
Theorem repository_services_follow_config {host : Host} (repo_name : string)
    (repo_config : RepoConfig.t) :
  RepoInfo.name (analyze_repository repo_name repo_config) = repo_name
  /\ ServiceInfo.name
       <$> RepoInfo.services (analyze_repository repo_name repo_config)
     = (if path_exists (RepoConfig.path repo_config)
        then filter (fun service_name =>
                       path_exists
                         (path_join (path_join (RepoConfig.path repo_config)
                                               "backend")
                                    service_name) = true)
                    (RepoConfig.services repo_config)
        else [])
  /\ Forall (fun info => ServiceInfo.repository info = repo_name)
            (RepoInfo.services (analyze_repository repo_name repo_config))
  /\ ServiceInfo.name
       <$> RepoInfo.services (analyze_repository repo_name repo_config)
     `sublist_of` RepoConfig.services repo_config.
Proof.
  split; [apply analyze_repository_name|].
  split; [apply analyze_repository_names|]. split.
  - unfold analyze_repository. destruct (path_exists (RepoConfig.path _)); cbn.
    + apply analyze_service_repository. constructor.
    + constructor.
  - rewrite analyze_repository_names.
    destruct (path_exists _); [apply sublist_filter|apply sublist_nil_l].
Qed.

(** X8: two services get the same id only if they have the same
    repository name and the same service name, provided the repository
    names contain no "/". *)
Theorem service_id_injective (repo_name repo_name' : string)
    (service service' : Service.t) :
  has_char "/" repo_name = false ->
  has_char "/" repo_name' = false ->
  service_id repo_name service = service_id repo_name' service' ->
  repo_name = repo_name' /\ Service.name service = Service.name service'.
Proof. intros H1 H2. unfold service_id. now apply slash_split. Qed.

Lemma service_id_injective_witness :
  "biopro-donor" = "biopro-donor" /\ "history" = "history".
Proof.
  apply (service_id_injective "biopro-donor" "biopro-donor"
           (Service.mk "history" ["AEvent"] [])
           (Service.mk "history" [] ["BEvent"]));
    vm_compute; reflexivity.
Defined.

(** Without that proviso two different services can share an id. *)
Example service_id_clash :
  service_id "a/b" (Service.mk "c" [] []) = service_id "a" (Service.mk "b/c" [] []).
Proof. reflexivity. Qed.

(** X9: in a whole run of [main], no publishers or consumers list of the
    inventory holds a service id twice, provided the configured repository
    names are distinct and free of "/" and no repository configures a
    service twice. *)
Theorem run_lists_duplicate_free {host : Host} (config : list (string * RepoConfig.t)) :
  NoDup config.*1 ->
  Forall (fun entry => has_char "/" entry.1 = false
                       /\ NoDup (RepoConfig.services entry.2)) config ->
  Forall (fun fl => NoDup (publishers fl) /\ NoDup (consumers fl))
         (main_event_flows config).
Proof.
  intros Hkeys Hcfg. apply Forall_forall. intros fl Hfl.
  unfold main_event_flows in Hfl.
  destruct (build_fields _ fl Hfl) as (-> & -> & _).
  pose proof (analysis_sets config) as Hsets.
  rewrite pubs_of_filter, cons_of_filter
    by (eapply Forall_impl; [exact Hsets|]; cbn; tauto).
  split; apply filter_ids_NoDup; now apply analysis_ids_NoDup.
Qed.

Lemma run_lists_duplicate_free_witness :
  Forall (fun fl => NoDup (publishers fl) /\ NoDup (consumers fl))
         (@main_event_flows example_host REPOSITORIES).
Proof.
  apply (run_lists_duplicate_free (host := example_host) REPOSITORIES).
  - vm_compute. repeat constructor; set_solver.
  - repeat constructor; try (vm_compute; reflexivity);
      cbn; repeat constructor; set_solver.
Defined.

(** X10: with the repositories the script ships with, whatever the file
    system holds, no publishers or consumers list of the inventory has a
    duplicate. *)
Theorem shipped_run_lists_duplicate_free {host : Host} :
  Forall (fun fl => NoDup (publishers fl) /\ NoDup (consumers fl))
         (main_event_flows REPOSITORIES).
Proof.
  assert (NoDup (fact_id <$> facts (to_repo <$> analyze_all REPOSITORIES)))
    as Hids.
  { apply analysis_ids_NoDup.
    - cbn. repeat constructor; set_solver.
    - repeat constructor; try reflexivity; cbn; repeat constructor; set_solver. }
  apply Forall_forall. intros fl Hfl. unfold main_event_flows in Hfl.
  destruct (build_fields _ fl Hfl) as (-> & -> & _).
  pose proof (analysis_sets REPOSITORIES) as Hsets.
  rewrite pubs_of_filter, cons_of_filter
    by (eapply Forall_impl; [exact Hsets|]; cbn; tauto).
  split; now apply filter_ids_NoDup.
Qed.

(** X11: the summary of a run counts every configured repository, also one
    whose directory is missing; it counts as services the facts handed to
    [map_flows], never more than were configured; and as events the flows
    returned. *)
Theorem run_summary_counts {host : Host} (config : list (string * RepoConfig.t)) :
  total_repositories (main_summary config) = length config
  /\ total_services (main_summary config)
     = length (facts (to_repo <$> analyze_all config))
  /\ total_services (main_summary config)
     <= length (config ≫= (fun entry => RepoConfig.services entry.2))
  /\ total_events (main_summary config) = length (main_event_flows config).
Proof.
  assert (total_services (main_summary config)
          = length (facts (to_repo <$> analyze_all config))) as Hfacts.
  { unfold main_summary, summary. cbn [total_services].
    generalize (to_repo <$> analyze_all config) as repos.
    unfold facts. induction repos as [|repo repos IH]; [reflexivity|].
    rewrite fmap_cons, bind_cons, length_app. cbn [sum_list].
    rewrite IH. unfold facts_of_repo. now rewrite length_fmap. }
  split; [|split; [exact Hfacts|split; [|reflexivity]]].
  - unfold main_summary, summary, analyze_all. cbn [total_repositories].
    now rewrite !length_fmap.
  - rewrite Hfacts, facts_of_analysis. clear Hfacts.
    induction config as [|[n c] config IH]; [reflexivity|].
    rewrite !bind_cons, !length_app. cbn [fst snd].
    apply Nat.add_le_mono; [|exact IH].
    unfold facts_of_repo, to_repo. cbn. rewrite !length_fmap.
    rewrite <- (length_fmap ServiceInfo.name), analyze_repository_names.
    destruct (path_exists _); [apply length_filter|cbn; lia].
Qed.

(** X12: in the listings of orphaned events, a side of a flow is printed
    as "NONE" exactly when its list is empty; a flow is orphaned exactly
    when a side prints as "NONE"; and never both sides do. *)
Theorem orphan_listing_none (repos : list Repo.t) (fl : EventFlow) :
  fl ∈ build repos ->
  (join_or_none (publishers fl) = "NONE" <-> publishers fl = [])
  /\ (join_or_none (consumers fl) = "NONE" <-> consumers fl = [])
  /\ (is_orphaned fl = true
      <-> join_or_none (publishers fl) = "NONE"
          \/ join_or_none (consumers fl) = "NONE")
  /\ (join_or_none (publishers fl) = "NONE"
      -> join_or_none (consumers fl) = "NONE" -> False).
Proof.
  intros Hfl. destruct (build_fields repos fl Hfl) as (Hp & Hc & Hflag).
  assert (forall s, s ∈ publishers fl \/ s ∈ consumers fl -> has_char "/" s = true)
    as Hslash.
  { intros s. rewrite Hp, Hc, pubs_of_elem_of, cons_of_elem_of.
    intros [(f & Hf & <- & _)|(f & Hf & <- & _)];
      apply facts_elem_of in Hf as (repo & service & _ & _ & ->);
      apply service_id_has_slash. }
  assert (forall l, (forall s, s ∈ l -> has_char "/" s = true) ->
                    (join_or_none l = "NONE" <-> l = [])) as Hnone.
  { intros [|x l] Hl; [split; reflexivity|].
    split; [|discriminate]. intros Heq. exfalso.
    apply (join_or_none_nonempty x l); [apply Hl; left|exact Heq]. }
  assert (join_or_none (publishers fl) = "NONE" <-> publishers fl = []) as Hpn
    by (apply Hnone; auto).
  assert (join_or_none (consumers fl) = "NONE" <-> consumers fl = []) as Hcn
    by (apply Hnone; auto).
  split; [exact Hpn|]. split; [exact Hcn|]. split.
  - now rewrite Hpn, Hcn, Hflag, orb_true_iff, !length_zero_nil.
  - rewrite Hpn, Hcn. intros Hpe Hce.
    apply build_elem_of in Hfl as [Hname _].
    destruct (names_of_offered _ _ Hname); congruence.
Qed.

Lemma orphan_listing_none_witness :
  (join_or_none ["r/A"] = "NONE" <-> ["r/A"] = [])
  /\ (join_or_none [] = "NONE" <-> @nil string = [])
  /\ (true = true <-> join_or_none ["r/A"] = "NONE" \/ join_or_none [] = "NONE")
  /\ (join_or_none ["r/A"] = "NONE" -> join_or_none [] = "NONE" -> False).
Proof.
  apply (orphan_listing_none
           [Repo.mk "r" [Service.mk "A" ["FooEvent"] []]]
           {| event := "FooEvent"; publishers := ["r/A"];
              consumers := []; is_orphaned := true |}).
  vm_compute. left.
Defined.

End AnalyzerProperties.

(** ** What [extract_with_consumers.py] does around the tracking block *)

Section ExtractorProperties.
Import Str StrFacts WithConsumers WithConsumersFacts Extractor ExtractorFacts.

(** X13: the names extracted from a listener file are pairwise distinct;
    a file that cannot be read yields none; for a readable file they are
    the name derived from a file name ending in "Listener.java", the
    imported event classes and the generic parameters, and nothing else. *)
Theorem listener_events_distinct {host : Host} (file_path : string) :
  NoDup (extract_consumed_events_from_listener file_path)
  /\ (read_text file_path = None ->
      extract_consumed_events_from_listener file_path = [])
  /\ (forall content e,
        read_text file_path = Some content ->
        (e ∈ extract_consumed_events_from_listener file_path
         <-> (endswith (basename file_path) "Listener.java" = true
              /\ e = replace (basename file_path) "Listener.java" "Event")
             \/ e ∈ import_events content
             \/ e ∈ generic_events content)).
Proof.
  split; [apply listener_events_NoDup|].
  unfold extract_consumed_events_from_listener. split; [now intros ->|].
  intros content e ->. rewrite !foldl_push_elem_of.
  destruct (endswith (basename file_path) "Listener.java").
  - rewrite list_elem_of_singleton. intuition.
  - rewrite elem_of_nil. intuition discriminate.
Qed.

Lemma listener_events_distinct_witness :
  NoDup (@extract_consumed_events_from_listener example_host "svc/Broken.java")
  /\ @extract_consumed_events_from_listener example_host "svc/Broken.java" = []
  /\ ("RefundEvent"
      ∈ @extract_consumed_events_from_listener example_host "svc/OrderListener.java"
      <-> (endswith "OrderListener.java" "Listener.java" = true
           /\ "RefundEvent" = replace "OrderListener.java" "Listener.java" "Event")
          \/ "RefundEvent" ∈ ["PaymentEvent"]
          \/ "RefundEvent" ∈ ["PaymentEvent"; "RefundEvent"]).
Proof.
  split; [|split].
  - apply (listener_events_distinct (host := example_host)).
  - apply (proj1 (proj2 (listener_events_distinct (host := example_host)
                           "svc/Broken.java"))).
    vm_compute. reflexivity.
  - apply (proj2 (proj2 (listener_events_distinct (host := example_host)
                           "svc/OrderListener.java"))
             "PaymentEvent" "RefundEvent").
    vm_compute. reflexivity.
Defined.

(** X14: for a readable listener file named [a ++ "Listener.java"], where
    "Listener.java" does not match earlier in the name, the first
    extracted name is [a ++ "Event"]; so a listener called
    "OrderEventListener.java" is taken to consume "OrderEventEvent". *)
Theorem listener_name_derived {host : Host} (file_path content a : string) :
  read_text file_path = Some content ->
  basename file_path = a +:+ "Listener.java" ->
  no_match_before "Listener.java" (String.length a) (basename file_path) = true ->
  exists rest,
    extract_consumed_events_from_listener file_path = (a +:+ "Event") :: rest.
Proof.
  intros Hread Hname Hfree. unfold extract_consumed_events_from_listener.
  rewrite Hread.
  rewrite (proj2 (endswith_app (basename file_path) "Listener.java"))
    by (exists a; exact Hname).
  rewrite Hname in Hfree |- *. rewrite replace_at_end by exact Hfree.
  destruct (foldl_push_prefix (import_events content) [a +:+ "Event"]) as [t1 ->].
  destruct (foldl_push_prefix (generic_events content) ([a +:+ "Event"] ++ t1))
    as [t2 ->].
  exists (t1 ++ t2). now rewrite <- List.app_assoc.
Qed.

Lemma listener_name_derived_witness :
  exists rest,
    @extract_consumed_events_from_listener example_host "svc/OrderEventListener.java"
    = "OrderEventEvent" :: rest.
Proof.
  apply (listener_name_derived (host := example_host)
           "svc/OrderEventListener.java" "PaymentEvent" "OrderEvent");
    vm_compute; reflexivity.
Defined.

(** X15: [main] never fails on a dict access; the flows it writes are those
    of the tracking block run over the services whose directory exists, in
    order; and its summary counts the configured repositories, the scanned
    services, the event files that gave an event, the distinct event names,
    and as events with consumers the distinct consumed names, which are
    never more than the flows. *)
Theorem main_runs_and_counts {host : Host} (REPOS : list Repo.t) :
  exists out,
    main REPOS = Some out
    /\ track_all (scans_of REPOS) = Some (Output.event_flows out)
    /\ Summary.repositories (Output.summary out) = length REPOS
    /\ Summary.services (Output.summary out) = length (scans_of REPOS)
    /\ length (Output.services out) = length (scans_of REPOS)
    /\ Summary.events (Output.summary out)
       = length (scans_of REPOS ≫= service_events)
    /\ Summary.event_flows (Output.summary out)
       = length (first_seen (names_of (scans_of REPOS)))
    /\ Summary.events_with_consumers (Output.summary out)
       = length (first_seen (scans_of REPOS ≫= consumed_event_names))
    /\ Summary.events_with_consumers (Output.summary out)
       <= Summary.event_flows (Output.summary out).
Proof.
  unfold main.
  destruct (process_repos_total REPOS
              {| all_events := []; all_services := []; event_flows := [] |})
    as (st & -> & Hflows & Hevents & Hservices).
  cbn in Hflows, Hevents, Hservices. cbn [mbind option_bind].
  eexists. split; [reflexivity|]. cbn.
  rewrite Hflows, Hevents, Hservices, track_all_run, events_with_consumers_run.
  repeat split; try reflexivity.
  - rewrite <- (length_fmap fst). fold (keys (foldl step [] (scans_of REPOS))).
    now rewrite run_keys.
  - rewrite <- events_with_consumers_run. apply events_with_consumers_le.
Qed.

(** X16: the order in which each service's set of consumed names is listed
    does not reach the flows: two runs that differ only in that order build
    dicts with the same keys, up to order, and the same publishers and
    consumers lists under every key. *)
Theorem set_order_does_not_reach_flows (scans scans' : list Scan) :
  Forall2 same_up_to_set_order scans scans' ->
  exists d d',
    track_all scans = Some d /\ track_all scans' = Some d'
    /\ keys d ≡ₚ keys d'
    /\ forall e, getitem d e = getitem d' e.
Proof.
  intros Hsame. exists (foldl step [] scans), (foldl step [] scans').
  split; [apply track_all_run|]. split; [apply track_all_run|].
  assert (keys (foldl step [] scans) ≡ₚ keys (foldl step [] scans')) as Hkeys.
  { rewrite !run_keys. apply NoDup_Permutation; try apply first_seen_NoDup.
    intros e. rewrite !first_seen_elem_of.
    now rewrite (names_of_set_order _ _ Hsame). }
  split; [exact Hkeys|]. intros e.
  destruct (getitem (foldl step [] scans) e) as [fl|] eqn:Hget;
    destruct (getitem (foldl step [] scans') e) as [fl'|] eqn:Hget'.
  - f_equal. apply getitem_view in Hget as [Hp Hc], Hget' as [Hp' Hc'].
    rewrite !run_view in Hp, Hc, Hp', Hc'.
    apply flow_eq; rewrite ?Hp, ?Hp', ?Hc, ?Hc';
      now rewrite (offered_set_order _ _ _ _ Hsame).
  - exfalso. apply getitem_None_keys in Hget'. apply Hget'.
    rewrite <- Hkeys. apply getitem_keys. eauto.
  - exfalso. apply getitem_None_keys in Hget. apply Hget.
    rewrite Hkeys. apply getitem_keys. eauto.
  - reflexivity.
Qed.

Lemma set_order_does_not_reach_flows_witness :
  exists d d',
    track_all [mkScan "A" [mkEvent "X"] ["P"; "Q"]] = Some d
    /\ track_all [mkScan "A" [mkEvent "X"] ["Q"; "P"]] = Some d'
    /\ keys d ≡ₚ keys d'
    /\ forall e, getitem d e = getitem d' e.
Proof.
  apply (set_order_does_not_reach_flows
           [mkScan "A" [mkEvent "X"] ["P"; "Q"]]
           [mkScan "A" [mkEvent "X"] ["Q"; "P"]]).
  constructor; [|constructor].
  split; [reflexivity|]. split; [reflexivity|]. apply perm_swap.
Defined.

(** X17: the consumed events that [create_service_mdx] reads back for a
    service from the written flows are, "Event" removed, exactly the names
    some scanned service of that name consumes. *)
Theorem service_consumers_round_trip (scans : list Scan)
    (d : list (string * Flow)) (service x : string) :
  track_all scans = Some d ->
  (x ∈ consumed_events_of service d
   <-> exists e scan,
         x = replace e "Event" "" /\ scan ∈ scans
         /\ service_name scan = service /\ e ∈ consumed_event_names scan).
Proof.
  intros Hrun. rewrite track_all_run in Hrun. injection Hrun as <-.
  unfold consumed_events_of. rewrite list_elem_of_fmap. split.
  - intros ([e fl] & -> & [Hs Hin]%list_elem_of_filter). cbn [fst snd] in *.
    apply run_entry in Hin as (_ & _ & Hc). rewrite Hc in Hs.
    apply first_seen_elem_of, offered_elem_of in Hs as (scan & ? & ? & ?).
    exists e, scan. auto.
  - intros (e & scan & -> & Hscan & Hname & He).
    assert (e ∈ names_of scans) as Hlisted
      by (apply consumed_names_listed, list_elem_of_bind; eauto).
    exists (e, {| publishers := first_seen (offered Pub e scans);
                  consumers := first_seen (offered Con e scans) |}).
    split; [reflexivity|]. apply list_elem_of_filter. cbn [fst snd]. split.
    + apply first_seen_elem_of, offered_elem_of. eauto.
    + apply run_entry. auto.
Qed.

Lemma service_consumers_round_trip_witness :
  "Payment" ∈ consumed_events_of "B"
                [("PaymentEvent", {| publishers := ["A"]; consumers := ["B"] |})]
  <-> exists e scan,
        "Payment" = replace e "Event" ""
        /\ scan ∈ [mkScan "A" [mkEvent "PaymentEvent"] [];
                   mkScan "B" [] ["PaymentEvent"]]
        /\ service_name scan = "B" /\ e ∈ consumed_event_names scan.
Proof.
  apply (service_consumers_round_trip
           [mkScan "A" [mkEvent "PaymentEvent"] []; mkScan "B" [] ["PaymentEvent"]]
           [("PaymentEvent", {| publishers := ["A"]; consumers := ["B"] |})]
           "B" "Payment").
  vm_compute. reflexivity.
Defined.

End ExtractorProperties.

Section UnguardedProperties.
Import WithConsumers WithConsumersFacts UnguardedFacts.

(** X18: the tracking block of [extract_all_biopro_repos.py] never fails
    and lists a service under an event once for every event record or
    consumer record of that name, in scan order; on the same scanned data
    the block of [extract_with_consumers.py] gives the same keys in the
    same order, and each of its lists is the other's with later
    repetitions dropped. *)
Theorem unguarded_flows_repeat_reports (scans : list Unguarded.Scan) :
  exists d d',
    Unguarded.track_all scans = Some d
    /\ track_all (Unguarded.to_scan <$> scans) = Some d'
    /\ keys d = keys d'
    /\ forall e fl,
         getitem d e = Some fl ->
         publishers fl = offered Pub e (Unguarded.to_scan <$> scans)
         /\ consumers fl = offered Con e (Unguarded.to_scan <$> scans)
         /\ exists fl',
              getitem d' e = Some fl'
              /\ publishers fl' = first_seen (publishers fl)
              /\ consumers fl' = first_seen (consumers fl).
Proof.
  exists (foldl Unguarded.step [] scans),
         (foldl step [] (Unguarded.to_scan <$> scans)).
  split; [apply unguarded_track_all_run|].
  split; [apply track_all_run|].
  assert (keys (foldl Unguarded.step [] scans)
          = keys (foldl step [] (Unguarded.to_scan <$> scans))) as Hkeys
    by (now rewrite unguarded_keys_run, run_keys).
  split; [exact Hkeys|].
  intros e fl Hget.
  pose proof (getitem_view _ _ _ Hget) as [Hp Hc].
  rewrite unguarded_view_run in Hp, Hc. cbn [app] in Hp, Hc.
  change (view [] e Pub) with (@nil string) in Hp.
  change (view [] e Con) with (@nil string) in Hc.
  cbn [app] in Hp, Hc.
  split; [exact Hp|]. split; [exact Hc|].
  assert (is_Some (getitem (foldl step [] (Unguarded.to_scan <$> scans)) e))
    as [fl' Hget'].
  { apply getitem_keys. rewrite <- Hkeys. apply getitem_keys. eauto. }
  exists fl'. split; [exact Hget'|].
  apply getitem_view in Hget' as [Hp' Hc'].
  rewrite run_view in Hp', Hc'. now rewrite Hp, Hc.
Qed.

(** A service with two event files of one class name is listed twice by
    the earlier script and once by the later one. *)
Example unguarded_lists_twice :
  Unguarded.track_all
    [Unguarded.mkScan "A" [mkEvent "X"; mkEvent "X"] [Unguarded.mkConsumer "Y"]]
  = Some [("X", {| publishers := ["A"; "A"]; consumers := [] |});
          ("Y", {| publishers := []; consumers := ["A"] |})]
  /\ track_all [mkScan "A" [mkEvent "X"; mkEvent "X"] ["Y"]]
     = Some [("X", {| publishers := ["A"]; consumers := [] |});
             ("Y", {| publishers := []; consumers := ["A"] |})].
Proof. split; reflexivity. Qed.

End UnguardedProperties.
